(** * Distance Vector routing: the [Network] class of [script.py]

    A shallow embedding of the Python class [Network] (constructor,
    [add_link], [initialize_tables], [update_routing], [simulate]) and of
    the concrete eight-node network built at module level, followed by the
    properties of the routing tables.

    Python values are modelled as follows.
    - A [dict] is an association list in insertion order; assigning to a
      key that is present replaces the value in place, assigning to a new
      key appends it.
    - A link cost is a Python [int] (as the docstring of [add_link] says),
      hence a [Z].  A recorded cost is an [int] or [float('inf')].
    - [int + float('inf')] converts the [int] to a [float] first; CPython
      raises [OverflowError] when the [int] does not fit.
    - An exception leaves the object in the state reached when it was
      raised, so every operation returns an outcome and a state. *)

From Stdlib Require Import ZArith List Bool String Lia Relations ListDec.
Import ListNotations.
Open Scope Z_scope.

Set Implicit Arguments.

(** ** Insertion-ordered dictionaries *)

Section Dict.
Variables K V : Type.
Variable K_eq_dec : forall x y : K, {x = y} + {x <> y}.

Definition dict := list (K * V).

Fixpoint dict_get (k : K) (d : dict) : option V :=
  match d with
  | [] => None
  | (k', v) :: d' => if K_eq_dec k k' then Some v else dict_get k d'
  end.

Fixpoint dict_set (k : K) (v : V) (d : dict) : dict :=
  match d with
  | [] => [(k, v)]
  | (k', v') :: d' =>
      if K_eq_dec k k' then (k', v) :: d' else (k', v') :: dict_set k v d'
  end.

Definition dict_keys (d : dict) : list K := map fst d.

(** [{k: f k for k in l}] *)
Definition dict_comp (f : K -> V) (l : list K) : dict :=
  fold_left (fun d k => dict_set k (f k) d) l [].
End Dict.

Arguments dict_get {K V} K_eq_dec k d.
Arguments dict_set {K V} K_eq_dec k v d.
Arguments dict_keys {K V} d.
Arguments dict_comp {K V} K_eq_dec f l.

(** ** Costs: a Python [int] or [float('inf')] *)

Inductive cost : Type :=
| Fin (z : Z)
| Inf.

(** [a < b] on an [int] or infinity. *)
Definition cost_ltb (a b : cost) : bool :=
  match a, b with
  | Fin x, Fin y => x <? y
  | Fin _, Inf => true
  | Inf, _ => false
  end.

Definition cost_le (a b : cost) : Prop :=
  match a, b with
  | Fin x, Fin y => x <= y
  | _, Inf => True
  | Inf, Fin _ => False
  end.

Definition cost_lt (a b : cost) : Prop := cost_ltb a b = true.

(** An [int] converts to a [float] when, rounded to 53 bits, it stays below
    [2^1024]. *)
Definition float_limit : Z := 2 ^ 1024 - 2 ^ 970.

Definition float_convertible (z : Z) : bool := Z.abs z <? float_limit.

Inductive exn : Type :=
| KeyError
| OverflowError.

Inductive outcome (A : Type) : Type :=
| Ok (a : A)
| Raise (e : exn).

Arguments Ok {A} a.
Arguments Raise {A} e.

(** [c + current_cost] with [c] an [int]. *)
Definition py_add (c : Z) (current_cost : cost) : outcome cost :=
  match current_cost with
  | Fin z => Ok (Fin (c + z))
  | Inf => if float_convertible c then Ok Inf else Raise OverflowError
  end.

(** ** The class [Network] *)

Section Network.
Variable node : Type.
Variable node_eq_dec : forall x y : node, {x = y} + {x <> y}.

(** A routing entry [(cost, next_hop)]; [None] is Python's [None]. *)
Definition entry_t : Type := cost * option node.

Record Network : Type := mkNetwork {
  nodes : list node;
  graph : dict node (dict node Z);
  routing_tables : dict node (dict node entry_t)
}.

(** Computations on a [Network] object that may raise. *)
Definition M (A : Type) : Type := Network -> outcome A * Network.

Definition ret {A} (a : A) : M A := fun st => (Ok a, st).

Definition raise {A} (e : exn) : M A := fun st => (Raise e, st).

Definition bind {A B} (m : M A) (f : A -> M B) : M B :=
  fun st =>
    match m st with
    | (Ok a, st') => f a st'
    | (Raise e, st') => (Raise e, st')
    end.

Notation "x <- m ;; k" := (bind m (fun x => k))
  (at level 61, m at next level, right associativity).
Notation "m ;;; k" := (bind m (fun _ => k))
  (at level 61, right associativity).

(** A [for] loop over [l] whose body updates the local variable [acc]. *)
Fixpoint for_each {A B} (l : list A) (body : A -> B -> M B) (acc : B) : M B :=
  match l with
  | [] => ret acc
  | x :: l' => acc' <- body x acc ;; for_each l' body acc'
  end.

(** [self.graph[n]] *)
Definition graph_at (n : node) : M (dict node Z) :=
  fun st =>
    match dict_get node_eq_dec n (graph st) with
    | Some g => (Ok g, st)
    | None => (Raise KeyError, st)
    end.

(** [self.routing_tables[n]] *)
Definition table_at (n : node) : M (dict node entry_t) :=
  fun st =>
    match dict_get node_eq_dec n (routing_tables st) with
    | Some t => (Ok t, st)
    | None => (Raise KeyError, st)
    end.

(** [self.graph[n1][n2] = c] once [self.graph[n1]] has been fetched:
    the inner dictionary is mutated in place. *)
Definition put_link (n1 n2 : node) (c : Z) (st : Network) : Network :=
  match dict_get node_eq_dec n1 (graph st) with
  | Some g =>
      mkNetwork (nodes st)
        (dict_set node_eq_dec n1 (dict_set node_eq_dec n2 c g) (graph st))
        (routing_tables st)
  | None => st
  end.

(** [self.routing_tables[n][d] = e] once [self.routing_tables[n]] has
    been fetched. *)
Definition put_entry (n d : node) (e : entry_t) (st : Network) : Network :=
  match dict_get node_eq_dec n (routing_tables st) with
  | Some t =>
      mkNetwork (nodes st) (graph st)
        (dict_set node_eq_dec n (dict_set node_eq_dec d e t) (routing_tables st))
  | None => st
  end.

Definition set_link (n1 n2 : node) (c : Z) : M unit :=
  graph_at n1 ;;; fun st => (Ok tt, put_link n1 n2 c st).

Definition set_entry (n d : node) (e : entry_t) : M unit :=
  table_at n ;;; fun st => (Ok tt, put_entry n d e st).

(** [self.routing_tables[n][d]] *)
Definition get_entry (n d : node) : M entry_t :=
  t <- table_at n ;;
  match dict_get node_eq_dec d t with
  | Some e => ret e
  | None => raise KeyError
  end.

Definition __init__ (ns : list node) : Network :=
  mkNetwork ns
    (dict_comp node_eq_dec (fun _ => []) ns)
    (dict_comp node_eq_dec
       (fun _ => dict_comp node_eq_dec (fun _ => (Inf, None)) ns) ns).

Definition add_link (node1 node2 : node) (c : Z) : M unit :=
  set_link node1 node2 c ;;;
  set_link node2 node1 c.

Definition initialize_tables : M unit :=
  fun st =>
    for_each (nodes st)
      (fun n (_ : unit) => set_entry n n (Fin 0, Some n)) tt st.

(** The body of the innermost loop of [update_routing].  The items view
    of the neighbour's table is live: the value bound to [current_cost]
    is the one stored when [dest] is visited. *)
Definition relax (n neighbor : node) (c : Z) (dest : node) (updated : bool)
  : M bool :=
  e <- get_entry neighbor dest ;;
  new_cost <- (fun st => (py_add c (fst e), st)) ;;
  best <- get_entry n dest ;;
  if cost_ltb new_cost (fst best)
  then set_entry n dest (new_cost, Some neighbor) ;;; ret true
  else ret updated.

Definition update_routing : M bool :=
  fun st =>
    for_each (nodes st)
      (fun n updated =>
         g <- graph_at n ;;
         for_each g
           (fun nc updated =>
              t <- table_at (fst nc) ;;
              for_each (dict_keys t)
                (fun dest updated => relax n (fst nc) (snd nc) dest updated)
                updated)
           updated)
      false st.

(** The loop of [simulate], bounded by [fuel]; the result is the value of
    [iteration] at the [break], or [None] when the fuel runs out.  The
    [print] calls do not touch the object and are left out. *)
Fixpoint simulate_loop (fuel : nat) (iteration : nat) : M (option nat) :=
  match fuel with
  | O => ret None
  | S fuel' =>
      changed <- update_routing ;;
      if changed then simulate_loop fuel' (S iteration)
      else ret (Some iteration)
  end.

Definition simulate (fuel : nat) : M (option nat) :=
  initialize_tables ;;; simulate_loop fuel 0%nat.

(** ** Reading a state *)

Definition entry (st : Network) (s d : node) : option entry_t :=
  match dict_get node_eq_dec s (routing_tables st) with
  | Some t => dict_get node_eq_dec d t
  | None => None
  end.

Definition link (st : Network) (s m : node) : option Z :=
  match dict_get node_eq_dec s (graph st) with
  | Some g => dict_get node_eq_dec m g
  | None => None
  end.

(** The state after a call, whatever its outcome. *)
Definition after {A} (m : M A) (st : Network) : Network := snd (m st).

(** The engine built by the constructor followed by [add_link] calls. *)
Definition add_links (links : list (node * node * Z)) : M unit :=
  for_each links
    (fun l (_ : unit) => add_link (fst (fst l)) (snd (fst l)) (snd l)) tt.

Definition build (ns : list node) (links : list (node * node * Z))
  : outcome unit * Network :=
  add_links links (__init__ ns).

(** The state after [k] calls of [update_routing]. *)
Fixpoint rounds (k : nat) (st : Network) : Network :=
  match k with
  | O => st
  | S k' => after update_routing (rounds k' st)
  end.

(** The state after [initialize_tables] and [k] calls of
    [update_routing]. *)
Definition run (k : nat) (st : Network) : Network :=
  rounds k (after initialize_tables st).

End Network.

(** ** The network of the script *)

Definition script_nodes : list string :=
  ["A"; "B"; "C"; "D"; "E"; "F"; "G"; "H"]%string.

Definition script_links : list (string * string * Z) :=
  [("A", "B", 2); ("A", "D", 6); ("A", "E", 3); ("B", "E", 1);
   ("B", "C", 2); ("C", "E", 3); ("C", "H", 1); ("D", "E", 2);
   ("E", "F", 3); ("E", "H", 4); ("F", "G", 2); ("G", "H", 2)]%string.

Definition network : Network string :=
  snd (build string_dec script_nodes script_links).

(** ** Small engines used as examples *)

(** Two nodes joined by a link of cost 1, tables not initialized. *)
Definition pair_engine : Network string :=
  snd (build string_dec ["A"; "B"]%string [("A", "B", 1)]%string).

(** The same after [initialize_tables] and one call of [update_routing]. *)
Definition pair_round : Network string :=
  after (update_routing string_dec)
    (after (initialize_tables string_dec)
       (after (add_link string_dec "A"%string "B"%string 1)
          (__init__ string_dec ["A"; "B"]%string))).

(** Two nodes joined by a link whose cost does not convert to a [float]. *)
Definition huge_engine : Network string :=
  snd (build string_dec ["A"; "B"]%string [("A", "B", 2 ^ 1024)]%string).

(** Two islands: [A] linked to [B] and [C] linked to [D], nothing between
    the two pairs. *)
Definition islands_engine : Network string :=
  snd (build string_dec ["A"; "B"; "C"; "D"]%string
         [("A", "B", 1); ("C", "D", 2)]%string).

(** A single node. *)
Definition lone_engine : Network string := __init__ string_dec ["A"%string].

(** Two nodes joined by a link of negative cost. *)
Definition negative_engine : Network string :=
  snd (build string_dec ["A"; "B"]%string [("A", "B", -1)]%string).

Unset Implicit Arguments.

(** ** Vocabulary of the properties *)

Section Vocabulary.
Variable node : Type.
Variable dec : forall x y : node, {x = y} + {x <> y}.

Implicit Types (st : Network node) (n m s d : node) (p : list node).

(** [self.routing_tables[n]], when present. *)
Definition table st n : option (dict node (entry_t node)) :=
  dict_get dec n (routing_tables st).

(** What one pass of the innermost loop body does. *)
Definition relax_result n m (c : Z) d (updated : bool) st
  : outcome bool * Network node :=
  match entry dec st m d with
  | None => (Raise KeyError, st)
  | Some e =>
      match py_add c (fst e) with
      | Raise x => (Raise x, st)
      | Ok new_cost =>
          match entry dec st n d with
          | None => (Raise KeyError, st)
          | Some best =>
              if cost_ltb new_cost (fst best)
              then (Ok true, put_entry dec n d (new_cost, Some m) st)
              else (Ok updated, st)
          end
      end
  end.

(** One table write of [update_routing]: node [n] with neighbour [m] at
    link cost [c] finds, for destination [d], a candidate strictly cheaper
    than its recorded cost and records it with next hop [m]. *)
Inductive relax_step st : Network node -> Prop :=
| relax_step_write n m g c d e best new_cost :
    dict_get dec n (graph st) = Some g ->
    In (m, c) g ->
    entry dec st m d = Some e ->
    entry dec st n d = Some best ->
    py_add c (fst e) = Ok new_cost ->
    cost_ltb new_cost (fst best) = true ->
    relax_step st (put_entry dec n d (new_cost, Some m) st).

(** Any number of table writes. *)
Inductive steps : Network node -> Network node -> Prop :=
| steps_refl st : steps st st
| steps_step st st' st'' : relax_step st st' -> steps st' st'' -> steps st st''.

(** The keys of [self.routing_tables[n]], in order. *)
Definition table_keys st n : option (list node) :=
  option_map (@dict_keys node (entry_t node)) (table st n).

(** [e'] is [e] or an entry with a strictly smaller cost. *)
Definition improves (e' e : entry_t node) : Prop :=
  e' = e \/ cost_lt (fst e') (fst e).

(** The body of the loop over the neighbours of [n]. *)
Definition neighbor_body n (nc : node * Z) (updated : bool) : M node bool :=
  bind (table_at dec (fst nc))
    (fun t =>
       for_each (dict_keys t)
         (fun dest updated => relax dec n (fst nc) (snd nc) dest updated)
         updated).

(** The body of the loop over the nodes. *)
Definition node_body n (updated : bool) : M node bool :=
  bind (graph_at dec n) (fun g => for_each g (neighbor_body n) updated).

(** The shape the constructor sets up and every operation that returns
    normally keeps: the graph and the tables are keyed by the nodes, the
    neighbours of a node are nodes. *)
Record wf st : Prop := mk_wf {
  wf_graph_at : forall n, In n (nodes st) ->
    exists g, dict_get dec n (graph st) = Some g;
  wf_graph_keys : forall n g, dict_get dec n (graph st) = Some g ->
    In n (nodes st);
  wf_neighbor : forall n g m c, dict_get dec n (graph st) = Some g ->
    In (m, c) g -> In m (nodes st);
  wf_graph_NoDup : forall n g, dict_get dec n (graph st) = Some g ->
    NoDup (dict_keys g);
  wf_table : forall n, In n (nodes st) ->
    exists ks, table_keys st n = Some ks /\
               forall d, In d ks <-> In d (nodes st)
}.

(** No link has a negative cost. *)
Definition graph_nonneg st : Prop :=
  forall n g m c, dict_get dec n (graph st) = Some g -> In (m, c) g -> 0 <= c.

(** Every link cost converts to a [float]. *)
Definition graph_convertible st : Prop :=
  forall n g m c, dict_get dec n (graph st) = Some g -> In (m, c) g ->
    float_convertible c = true.

(** Every entry is [(float('inf'), None)]. *)
Definition all_inf st : Prop :=
  forall s d e, entry dec st s d = Some e -> e = (Inf, None).

(** The cost of the path that leaves [s] and visits [p] in order;
    [None] when a link is missing.  It ends at [last p s]. *)
Fixpoint path_cost st s p : option Z :=
  match p with
  | [] => Some 0
  | m :: p' =>
      match link dec st s m, path_cost st m p' with
      | Some w, Some z => Some (w + z)
      | _, _ => None
      end
  end.

(** There is a path from [s] to [d]. *)
Definition connected st s d : Prop :=
  exists p z, path_cost st s p = Some z /\ last p s = d.

(** [z] is the least cost of a path from [s] to [d]. *)
Definition is_dist st s d (z : Z) : Prop :=
  (exists p, path_cost st s p = Some z /\ last p s = d) /\
  (forall p z', path_cost st s p = Some z' -> last p s = d -> z <= z').

(** Addition of a link cost to a recorded cost, where it does not raise. *)
Definition cadd (c : Z) (x : cost) : cost :=
  match x with
  | Fin z => Fin (c + z)
  | Inf => Inf
  end.

(** A finite recorded cost is the cost of a path of the graph, and comes
    with a next hop; an infinite one comes with [None]. *)
Definition sound st : Prop :=
  forall s d e, entry dec st s d = Some e ->
    e = (Inf, None) \/
    exists z m p, e = (Fin z, Some m) /\
                  path_cost st s p = Some z /\ last p s = d.

(** No recorded cost is negative. *)
Definition nonneg_entries st : Prop :=
  forall s d z h, entry dec st s d = Some (Fin z, h) -> 0 <= z.

(** Every node records [(0, itself)] for itself. *)
Definition self_zero st : Prop :=
  forall x, In x (nodes st) -> entry dec st x x = Some (Fin 0, Some x).

(** The recorded next hop is a neighbour through which the recorded cost
    can be met. *)
Definition hop_ok st : Prop :=
  forall s d z m, s <> d -> entry dec st s d = Some (Fin z, Some m) ->
    exists w e, link dec st s m = Some w /\ entry dec st m d = Some e /\
                cost_le (cadd w (fst e)) (Fin z).

(** After the pass over [(n, m, d)], the cost recorded for [n] to [d] is
    at most the link cost plus what [m] recorded for [d] in [st0]. *)
Definition covered st0 n m (c : Z) d st : Prop :=
  forall e0, entry dec st0 m d = Some e0 ->
    exists e, entry dec st n d = Some e /\ cost_le (fst e) (cadd c (fst e0)).

(** No link offers a strictly cheaper route: the tables satisfy the
    Bellman-Ford inequalities. *)
Definition settled st : Prop :=
  forall n g m c d, In n (nodes st) ->
    dict_get dec n (graph st) = Some g -> In (m, c) g ->
    covered st n m c d st.

(** Every link cost of the graph passes the test [P]. *)
Definition graph_all (P : Z -> bool) st : bool :=
  forallb (fun ng : node * dict node Z =>
             forallb (fun mc : node * Z => P (snd mc)) (snd ng))
          (graph st).

(** The boolean versions of [graph_nonneg] and [graph_convertible]. *)
Definition graph_nonnegb st : bool := graph_all (fun c => 0 <=? c) st.

Definition graph_convertibleb st : bool := graph_all float_convertible st.

(** The states an engine can be in: any sequence of calls, including
    calls that raise. *)
Inductive reachable : Network node -> Prop :=
| reach_init ns : reachable (__init__ dec ns)
| reach_add_link st n1 n2 c :
    reachable st -> reachable (after (add_link dec n1 n2 c) st)
| reach_initialize st :
    reachable st -> reachable (after (initialize_tables dec) st)
| reach_update st :
    reachable st -> reachable (after (update_routing dec) st).

(** The next hop recorded for another node is a neighbour. *)
Definition hop_is_neighbor st : Prop :=
  forall n d c m, n <> d -> entry dec st n d = Some (c, Some m) ->
    exists g, dict_get dec n (graph st) = Some g /\ In m (dict_keys g).

(** Shortest paths with at most [k] links are accounted for. *)
Definition bounded (k : nat) st : Prop :=
  forall s p z, In s (nodes st) -> (List.length p <= k)%nat ->
    path_cost st s p = Some z ->
    exists e, entry dec st s (last p s) = Some e /\ cost_le (fst e) (Fin z).

(** What holds of a state [st] reached from the engine [st0] by
    [initialize_tables] and calls of [update_routing]. *)
Record run_inv st0 st : Prop := mk_run_inv {
  run_wf : wf st;
  run_nodes : nodes st = nodes st0;
  run_graph : graph st = graph st0;
  run_sound : sound st;
  run_hop : hop_ok st;
  run_nonneg : graph_nonneg st0 -> nonneg_entries st /\ self_zero st
}.

(** The nodes are exactly the keys of the graph. *)
Definition graph_keys_ok st : Prop :=
  forall n, In n (nodes st) <-> dict_get dec n (graph st) <> None.

(** Some entry of [st'] is strictly cheaper than it was in [st]. *)
Definition progress st st' : Prop :=
  exists s d e e',
    entry dec st s d = Some e /\ entry dec st' s d = Some e' /\
    cost_lt (fst e') (fst e).

(** The nodes are exactly the keys of [self.routing_tables]. *)
Definition tables_ok st : Prop :=
  forall n, In n (nodes st) <-> table st n <> None.

(** An entry is [(float('inf'), None)] or an [int] with a next hop. *)
Definition entry_shape (e : entry_t node) : Prop :=
  e = (Inf, None) \/ exists z m, e = (Fin z, Some m).

(** Links have the same cost in both directions. *)
Definition graph_symmetric st : Prop :=
  forall a b, link dec st a b = link dec st b a.

End Vocabulary.

Arguments table {node} dec st n.
Arguments table_keys {node} dec st n.
Arguments relax_result {node} dec n m c d updated st.
Arguments relax_step {node} dec st _.
Arguments steps {node} dec _ _.
Arguments improves {node} e' e.
Arguments neighbor_body {node} dec n nc updated _.
Arguments node_body {node} dec n updated _.
Arguments wf {node} dec st.
Arguments graph_nonneg {node} dec st.
Arguments graph_convertible {node} dec st.
Arguments all_inf {node} dec st.
Arguments path_cost {node} dec st s p.
Arguments connected {node} dec st s d.
Arguments is_dist {node} dec st s d z.
Arguments sound {node} dec st.
Arguments nonneg_entries {node} dec st.
Arguments self_zero {node} dec st.
Arguments hop_ok {node} dec st.
Arguments covered {node} dec st0 n m c d st.
Arguments settled {node} dec st.
Arguments graph_all {node} P st.
Arguments graph_nonnegb {node} st.
Arguments graph_convertibleb {node} st.
Arguments reachable {node} dec _.
Arguments hop_is_neighbor {node} dec st.
Arguments bounded {node} dec k st.
Arguments run_inv {node} dec st0 st.
Arguments graph_keys_ok {node} dec st.
Arguments progress {node} dec st st'.
Arguments tables_ok {node} dec st.
Arguments entry_shape {node} e.
Arguments graph_symmetric {node} dec st.

(** ** Facts about dictionaries *)

Section DictFacts.
Variables K V : Type.
Variable dec : forall x y : K, {x = y} + {x <> y}.

Implicit Types (d : dict K V) (k : K) (v : V).

Lemma dict_get_set_eq k v d : dict_get dec k (dict_set dec k v d) = Some v.
Proof.
  induction d as [|[k' v'] d IH]; simpl.
  - destruct (dec k k); congruence.
  - destruct (dec k k') as [->|Hne]; simpl.
    + destruct (dec k' k'); congruence.
    + destruct (dec k k'); congruence.
Qed.

Lemma dict_get_set_neq k k' v d :
  k <> k' -> dict_get dec k' (dict_set dec k v d) = dict_get dec k' d.
Proof.
  intros Hne. induction d as [|[k0 v0] d IH]; simpl.
  - destruct (dec k' k); congruence.
  - destruct (dec k k0) as [->|Hk]; simpl.
    + destruct (dec k' k0); congruence.
    + destruct (dec k' k0); congruence.
Qed.

Lemma dict_get_set k k' v d :
  dict_get dec k' (dict_set dec k v d)
  = if dec k k' then Some v else dict_get dec k' d.
Proof.
  destruct (dec k k') as [->|Hne].
  - apply dict_get_set_eq.
  - now apply dict_get_set_neq.
Qed.

Lemma dict_get_Some_In k v d : dict_get dec k d = Some v -> In (k, v) d.
Proof.
  induction d as [|[k' v'] d IH]; simpl; [discriminate|].
  destruct (dec k k') as [->|Hne]; intros H.
  - left. congruence.
  - right. auto.
Qed.

Lemma dict_get_In_keys k v d : dict_get dec k d = Some v -> In k (dict_keys d).
Proof.
  intros H. apply dict_get_Some_In in H.
  unfold dict_keys. change k with (fst (k, v)). now apply in_map.
Qed.

Lemma dict_keys_In_get k d :
  In k (dict_keys d) -> exists v, dict_get dec k d = Some v.
Proof.
  induction d as [|[k' v'] d IH]; simpl; [tauto|].
  intros [Heq|Hin]; destruct (dec k k') as [->|Hne]; eauto.
  congruence.
Qed.

Lemma dict_In_keys k v d : In (k, v) d -> In k (dict_keys d).
Proof.
  intros H. unfold dict_keys. change k with (fst (k, v)). now apply in_map.
Qed.

Lemma dict_NoDup_In_get k v d :
  NoDup (dict_keys d) -> In (k, v) d -> dict_get dec k d = Some v.
Proof.
  induction d as [|[k' v'] d IH]; simpl; [tauto|].
  intros Hnd [Heq|Hin].
  - inversion Heq; subst. destruct (dec k k); congruence.
  - inversion Hnd as [|? ? Hnotin Hnd']; subst.
    destruct (dec k k') as [->|Hne]; auto.
    exfalso. apply Hnotin. eapply dict_In_keys; eauto.
Qed.

(** Assigning to a key that is present keeps the key order. *)
Lemma dict_keys_set_present k v d :
  In k (dict_keys d) -> dict_keys (dict_set dec k v d) = dict_keys d.
Proof.
  induction d as [|[k' v'] d IH]; simpl; [tauto|].
  intros Hin. destruct (dec k k') as [->|Hne]; simpl; [reflexivity|].
  f_equal. apply IH. destruct Hin; congruence.
Qed.

Lemma dict_keys_set_In k v d x :
  In x (dict_keys (dict_set dec k v d)) <-> x = k \/ In x (dict_keys d).
Proof.
  induction d as [|[k' v'] d IH]; simpl.
  - intuition congruence.
  - destruct (dec k k') as [->|Hne]; simpl.
    + intuition congruence.
    + rewrite IH. intuition congruence.
Qed.

Lemma dict_set_In k v d x w :
  In (x, w) (dict_set dec k v d) -> (x = k /\ w = v) \/ In (x, w) d.
Proof.
  induction d as [|[k' v'] d IH]; simpl.
  - intros [H|[]]. left. split; congruence.
  - destruct (dec k k') as [->|Hne]; simpl.
    + intros [H|H]; [left; split; congruence | right; right; exact H].
    + intros [H|H]; [right; left; exact H|].
      destruct (IH H) as [?|?]; [left|right; right]; assumption.
Qed.

Lemma dict_keys_set_NoDup k v d :
  NoDup (dict_keys d) -> NoDup (dict_keys (dict_set dec k v d)).
Proof.
  induction d as [|[k' v'] d IH]; simpl; intros Hnd.
  - constructor; [simpl; tauto | constructor].
  - inversion Hnd as [|? ? Hnotin Hnd']; subst.
    destruct (dec k k') as [->|Hne]; simpl.
    + constructor; assumption.
    + constructor; [|auto].
      change (~ In k' (dict_keys (dict_set dec k v d))).
      rewrite dict_keys_set_In. intros [Heq|Hin]; [congruence | auto].
Qed.

Section Comprehension.
Variable f : K -> V.

Lemma dict_comp_fold_keys l d x :
  In x (dict_keys (fold_left (fun d k => dict_set dec k (f k) d) l d))
  <-> In x l \/ In x (dict_keys d).
Proof.
  revert d. induction l as [|a l IH]; intros d; simpl.
  - tauto.
  - rewrite IH, dict_keys_set_In. intuition congruence.
Qed.

Lemma dict_comp_fold_NoDup l d :
  NoDup (dict_keys d) ->
  NoDup (dict_keys (fold_left (fun d k => dict_set dec k (f k) d) l d)).
Proof.
  revert d. induction l as [|a l IH]; intros d Hnd; simpl; [assumption|].
  apply IH. now apply dict_keys_set_NoDup.
Qed.

Lemma dict_comp_fold_get l d x :
  (forall y v, dict_get dec y d = Some v -> v = f y) ->
  forall v,
    dict_get dec x (fold_left (fun d k => dict_set dec k (f k) d) l d) = Some v ->
    v = f x.
Proof.
  revert d. induction l as [|a l IH]; intros d Hd v; simpl.
  - apply Hd.
  - apply IH. intros y w. rewrite dict_get_set.
    destruct (dec a y) as [->|Hne]; [congruence | apply Hd].
Qed.

Lemma dict_comp_keys l x : In x (dict_keys (dict_comp dec f l)) <-> In x l.
Proof.
  unfold dict_comp. rewrite dict_comp_fold_keys. simpl. tauto.
Qed.

Lemma dict_comp_NoDup l : NoDup (dict_keys (dict_comp dec f l)).
Proof.
  unfold dict_comp. apply dict_comp_fold_NoDup. constructor.
Qed.

Lemma dict_comp_get l x :
  dict_get dec x (dict_comp dec f l) = if in_dec dec x l then Some (f x) else None.
Proof.
  destruct (in_dec dec x l) as [Hin|Hnin].
  - apply (proj2 (dict_comp_keys l x)) in Hin. apply dict_keys_In_get in Hin.
    destruct Hin as [v Hv]. rewrite Hv. f_equal.
    unfold dict_comp in Hv. eapply dict_comp_fold_get; eauto.
    simpl. discriminate.
  - destruct (dict_get dec x (dict_comp dec f l)) eqn:E; [|reflexivity].
    apply dict_get_In_keys in E. apply (proj1 (dict_comp_keys l x)) in E.
    contradiction.
Qed.
End Comprehension.
End DictFacts.

(** ** The order on costs *)

Lemma cost_le_refl a : cost_le a a.
Proof. destruct a; simpl; lia. Qed.

Lemma cost_le_trans a b c : cost_le a b -> cost_le b c -> cost_le a c.
Proof. destruct a, b, c; simpl; try tauto; lia. Qed.

Lemma cost_lt_le a b : cost_lt a b -> cost_le a b.
Proof.
  unfold cost_lt. destruct a, b; simpl; try discriminate; try tauto.
  intros H. apply Z.ltb_lt in H. lia.
Qed.

Lemma cost_lt_trans a b c : cost_lt a b -> cost_lt b c -> cost_lt a c.
Proof.
  unfold cost_lt. destruct a, b, c; simpl; try discriminate; try tauto.
  rewrite !Z.ltb_lt. lia.
Qed.

Lemma cost_ltb_false_le a b : cost_ltb a b = false -> cost_le b a.
Proof.
  destruct a, b; simpl; try discriminate; try tauto.
  intros H. apply Z.ltb_ge in H. exact H.
Qed.

Lemma cost_lt_not_le a b : cost_lt a b -> cost_le b a -> False.
Proof.
  unfold cost_lt. destruct a, b; simpl; try discriminate; try tauto.
  rewrite Z.ltb_lt. lia.
Qed.

(** A candidate that beats anything is finite, and so is the cost it was
    computed from. *)
Lemma py_add_lt_inv c cc new best :
  py_add c cc = Ok new -> cost_ltb new best = true ->
  exists z, cc = Fin z /\ new = Fin (c + z).
Proof.
  destruct cc as [z|]; simpl.
  - intros H _. inversion H. eauto.
  - destruct (float_convertible c); [|discriminate].
    intros H. inversion H; subst. simpl. discriminate.
Qed.

(** ** Reading and writing a state *)

Section StateFacts.
Variable node : Type.
Variable dec : forall x y : node, {x = y} + {x <> y}.

Implicit Types (st : Network node) (n m s d : node) (e : entry_t node).

Lemma entry_table st s d :
  entry dec st s d
  = match table dec st s with Some t => dict_get dec d t | None => None end.
Proof. reflexivity. Qed.

Lemma put_entry_nodes n d e st : nodes (put_entry dec n d e st) = nodes st.
Proof.
  unfold put_entry. destruct (dict_get dec n (routing_tables st)); reflexivity.
Qed.

Lemma put_entry_graph n d e st : graph (put_entry dec n d e st) = graph st.
Proof.
  unfold put_entry. destruct (dict_get dec n (routing_tables st)); reflexivity.
Qed.

Lemma put_entry_table n d e st t n' :
  table dec st n = Some t ->
  table dec (put_entry dec n d e st) n'
  = if dec n n' then Some (dict_set dec d e t) else table dec st n'.
Proof.
  unfold table, put_entry. intros H. rewrite H. simpl.
  apply dict_get_set.
Qed.

Lemma put_entry_entry n d e st s' d' :
  table dec st n <> None ->
  entry dec (put_entry dec n d e st) s' d'
  = if dec n s' then (if dec d d' then Some e else entry dec st s' d')
    else entry dec st s' d'.
Proof.
  intros H. destruct (table dec st n) as [t|] eqn:Ht; [|congruence].
  rewrite !entry_table, (put_entry_table _ _ _ _ _ _ Ht).
  destruct (dec n s') as [->|Hne]; [|reflexivity].
  rewrite Ht. apply dict_get_set.
Qed.

Lemma entry_Some_table st s d e :
  entry dec st s d = Some e -> table dec st s <> None.
Proof. rewrite entry_table. destruct (table dec st s); congruence. Qed.

Lemma link_put_entry n d e st s m :
  link dec (put_entry dec n d e st) s m = link dec st s m.
Proof. unfold link. now rewrite put_entry_graph. Qed.

Lemma get_entry_eq n d st :
  get_entry dec n d st
  = match entry dec st n d with
    | Some e => (Ok e, st)
    | None => (Raise KeyError, st)
    end.
Proof.
  unfold get_entry, bind, table_at, entry.
  destruct (dict_get dec n (routing_tables st)) as [t|]; [|reflexivity].
  destruct (dict_get dec d t); reflexivity.
Qed.

Lemma set_entry_eq n d e st :
  set_entry dec n d e st
  = match table dec st n with
    | Some _ => (Ok tt, put_entry dec n d e st)
    | None => (Raise KeyError, st)
    end.
Proof.
  unfold set_entry, bind, table_at, table.
  destruct (dict_get dec n (routing_tables st)); reflexivity.
Qed.

Lemma relax_eq n m c d updated st :
  relax dec n m c d updated st = relax_result dec n m c d updated st.
Proof.
  unfold relax, relax_result, bind. rewrite get_entry_eq.
  destruct (entry dec st m d) as [e|]; [|reflexivity].
  destruct (py_add c (fst e)) as [new|x]; [|reflexivity].
  rewrite get_entry_eq.
  destruct (entry dec st n d) as [best|] eqn:Hb; [|reflexivity].
  destruct (cost_ltb new (fst best)); [|reflexivity].
  rewrite set_entry_eq.
  destruct (table dec st n) eqn:Ht; [reflexivity|].
  apply entry_Some_table in Hb. contradiction.
Qed.

(** ** Table writes *)

Lemma steps_trans st st' st'' :
  steps dec st st' -> steps dec st' st'' -> steps dec st st''.
Proof.
  induction 1; [auto|]. intros H2. eapply steps_step; eauto.
Qed.

Lemma steps_one st st' : relax_step dec st st' -> steps dec st st'.
Proof. intros H. eapply steps_step; [exact H | constructor]. Qed.

Lemma relax_step_nodes st st' : relax_step dec st st' -> nodes st' = nodes st.
Proof. destruct 1. apply put_entry_nodes. Qed.

Lemma relax_step_graph st st' : relax_step dec st st' -> graph st' = graph st.
Proof. destruct 1. apply put_entry_graph. Qed.

Lemma steps_nodes st st' : steps dec st st' -> nodes st' = nodes st.
Proof.
  induction 1 as [|? ? ? H _ IH]; [reflexivity|].
  rewrite IH. now apply relax_step_nodes.
Qed.

Lemma steps_graph st st' : steps dec st st' -> graph st' = graph st.
Proof.
  induction 1 as [|? ? ? H _ IH]; [reflexivity|].
  rewrite IH. now apply relax_step_graph.
Qed.

Lemma steps_link st st' s m :
  steps dec st st' -> link dec st' s m = link dec st s m.
Proof. intros H. unfold link. now rewrite (steps_graph _ _ H). Qed.

Lemma relax_step_table_keys st st' n :
  relax_step dec st st' -> table_keys dec st' n = table_keys dec st n.
Proof.
  destruct 1 as [n0 m g c d e best new Hg Hin He Hb Hadd Hlt].
  unfold table_keys.
  rewrite entry_table in Hb.
  destruct (table dec st n0) as [t|] eqn:Ht; [|discriminate].
  rewrite (put_entry_table _ _ _ _ _ _ Ht).
  destruct (dec n0 n) as [->|Hne]; [|reflexivity].
  rewrite Ht. simpl. f_equal.
  apply dict_keys_set_present. eapply dict_get_In_keys; eauto.
Qed.

Lemma steps_table_keys st st' n :
  steps dec st st' -> table_keys dec st' n = table_keys dec st n.
Proof.
  induction 1 as [|? ? ? H _ IH]; [reflexivity|].
  rewrite IH. now apply relax_step_table_keys.
Qed.

Lemma improves_le e' e : improves e' e -> cost_le (fst e') (fst e).
Proof.
  intros [->|H]; [apply cost_le_refl | now apply cost_lt_le].
Qed.

Lemma improves_trans e1 e2 e3 :
  improves e1 e2 -> improves e2 e3 -> improves e1 e3.
Proof.
  intros [->|H1] [->|H2]; try (left; reflexivity); try (right; assumption).
  right. eapply cost_lt_trans; eauto.
Qed.

Lemma relax_step_entry st st' s d e :
  relax_step dec st st' -> entry dec st s d = Some e ->
  exists e', entry dec st' s d = Some e' /\ improves e' e.
Proof.
  destruct 1 as [n0 m g c d0 e0 best new Hg Hin He Hb Hadd Hlt].
  intros Hsd.
  rewrite put_entry_entry by (eapply entry_Some_table; eauto).
  destruct (dec n0 s) as [->|Hn]; [destruct (dec d0 d) as [->|Hd]|].
  - eexists; split; [reflexivity|]. right.
    rewrite Hb in Hsd. inversion Hsd; subst. exact Hlt.
  - eexists; split; [eassumption | left; reflexivity].
  - eexists; split; [eassumption | left; reflexivity].
Qed.

Lemma steps_entry st st' s d e :
  steps dec st st' -> entry dec st s d = Some e ->
  exists e', entry dec st' s d = Some e' /\ improves e' e.
Proof.
  intros H. revert e. induction H as [|? ? ? H _ IH]; intros e He.
  - exists e. split; [assumption | left; reflexivity].
  - destruct (relax_step_entry _ _ _ _ _ H He) as (e1 & He1 & Hi1).
    destruct (IH _ He1) as (e2 & He2 & Hi2).
    exists e2. split; [assumption|]. eapply improves_trans; eauto.
Qed.

Lemma relax_step_entry_back st st' s d e' :
  relax_step dec st st' -> entry dec st' s d = Some e' ->
  exists e, entry dec st s d = Some e.
Proof.
  destruct 1 as [n0 m g c d0 e0 best new Hg Hin He Hb Hadd Hlt].
  rewrite put_entry_entry by (eapply entry_Some_table; eauto).
  destruct (dec n0 s) as [->|Hn]; [destruct (dec d0 d) as [->|Hd]|]; eauto.
Qed.
End StateFacts.

(** ** Loops *)

Section LoopFacts.
Variable node : Type.
Variable dec : forall x y : node, {x = y} + {x <> y}.

Implicit Types (st s : Network node) (n m d : node).

Section ForEach.
Variables A B : Type.
Variable body : A -> B -> M node B.

(** A loop whose body only performs table writes only performs table
    writes, whether it completes or raises. *)
Lemma for_each_steps st0 l :
  (forall x a s, In x l -> steps dec st0 s -> steps dec s (after (body x a) s)) ->
  forall acc st, steps dec st0 st -> steps dec st (after (for_each l body acc) st).
Proof.
  induction l as [|x l IH]; intros Hbody acc st Hst; simpl.
  - constructor.
  - unfold after, bind in *.
    specialize (Hbody x acc st (or_introl eq_refl) Hst) as Hx.
    destruct (body x acc st) as [[a'|e] s'] eqn:E; simpl in *.
    + eapply steps_trans; [exact Hx|].
      apply IH.
      * intros y a s Hy. apply Hbody. now right.
      * eapply steps_trans; eauto.
    + exact Hx.
Qed.

(** A property established by the pass over [x] and kept by later
    writes holds for every [x] when the loop completes. *)
Lemma for_each_cover st0 (Q : A -> Network node -> Prop) l :
  (forall y s s', steps dec s s' -> Q y s -> Q y s') ->
  (forall x a s a' s', In x l -> steps dec st0 s ->
     body x a s = (Ok a', s') -> steps dec s s' /\ Q x s') ->
  forall acc st b st', steps dec st0 st ->
    for_each l body acc st = (Ok b, st') ->
    steps dec st st' /\ forall x, In x l -> Q x st'.
Proof.
  intros Hstable.
  induction l as [|x l IH]; intros Hbody acc st b st' Hst; simpl.
  - unfold ret. intros H. inversion H; subst. split; [constructor | tauto].
  - unfold bind. destruct (body x acc st) as [[a'|e] s1] eqn:E; [|discriminate].
    intros Hrest.
    destruct (Hbody x acc st a' s1 (or_introl eq_refl) Hst E) as [Hs1 HQ].
    destruct (IH (fun y a s a2 s2 Hy => Hbody y a s a2 s2 (or_intror Hy))
                a' s1 b st' (steps_trans _ _ _ _ _ Hst Hs1) Hrest) as [Hs2 Hall].
    split; [eapply steps_trans; eauto|].
    intros y [<-|Hy]; [|auto].
    eapply Hstable; eauto.
Qed.

(** A loop that completes without raising when its body never raises. *)
Lemma for_each_ok st0 l :
  (forall x a s, In x l -> steps dec st0 s ->
     steps dec s (after (body x a) s) /\ exists b, fst (body x a s) = Ok b) ->
  forall acc st, steps dec st0 st -> exists b, fst (for_each l body acc st) = Ok b.
Proof.
  induction l as [|x l IH]; intros Hbody acc st Hst; simpl.
  - eexists. reflexivity.
  - unfold bind.
    destruct (Hbody x acc st (or_introl eq_refl) Hst) as [Hs [b Hb]].
    unfold after in Hs.
    destruct (body x acc st) as [[a'|e] s1] eqn:E; simpl in *; [|discriminate].
    apply IH.
    + intros y a s Hy. apply Hbody. now right.
    + eapply steps_trans; eauto.
Qed.
End ForEach.

Section ForEachFlag.
Variable A : Type.
Variable body : A -> bool -> M node bool.

(** The flag stays [false] only if nothing was written. *)
Lemma for_each_false l :
  (forall x a s s', In x l -> body x a s = (Ok false, s') -> a = false /\ s' = s) ->
  forall acc st st',
    for_each l body acc st = (Ok false, st') -> acc = false /\ st' = st.
Proof.
  induction l as [|x l IH]; intros Hbody acc st st'; simpl.
  - unfold ret. intros H. inversion H; subst. split; reflexivity.
  - unfold bind. destruct (body x acc st) as [[a'|e] s1] eqn:E; [|discriminate].
    intros Hrest.
    destruct (IH (fun y a s s2 Hy => Hbody y a s s2 (or_intror Hy)) _ _ _ Hrest)
      as [-> ->].
    apply (Hbody x acc st s1 (or_introl eq_refl) E).
Qed.

Lemma for_each_fix l st :
  (forall x, In x l -> body x false st = (Ok false, st)) ->
  for_each l body false st = (Ok false, st).
Proof.
  induction l as [|x l IH]; intros Hbody; simpl.
  - reflexivity.
  - unfold bind. rewrite (Hbody x (or_introl eq_refl)).
    apply IH. intros y Hy. apply Hbody. now right.
Qed.
End ForEachFlag.

Lemma update_routing_eq st :
  update_routing dec st = for_each (nodes st) (node_body dec) false st.
Proof. reflexivity. Qed.

(** *** Every state change is a table write *)

Lemma relax_steps n m c d g updated s :
  dict_get dec n (graph s) = Some g -> In (m, c) g ->
  steps dec s (after (relax dec n m c d updated) s).
Proof.
  intros Hg Hin. unfold after. rewrite relax_eq. unfold relax_result.
  destruct (entry dec s m d) as [e|] eqn:He; [|constructor].
  destruct (py_add c (fst e)) as [new|x] eqn:Hadd; [|constructor].
  destruct (entry dec s n d) as [best|] eqn:Hb; [|constructor].
  destruct (cost_ltb new (fst best)) eqn:Hlt; [|constructor].
  simpl. apply steps_one. econstructor; eauto.
Qed.

Lemma neighbor_body_steps n nc g updated s :
  dict_get dec n (graph s) = Some g -> In nc g ->
  steps dec s (after (neighbor_body dec n nc updated) s).
Proof.
  intros Hg Hin. unfold after, neighbor_body, bind, table_at.
  destruct (dict_get dec (fst nc) (routing_tables s)) as [t|]; [|constructor].
  apply for_each_steps with (st0 := s); [|constructor].
  intros dest a s1 _ Hs1. destruct nc as [m c]. simpl.
  apply relax_steps with (g := g); [|assumption].
  now rewrite (steps_graph _ _ _ _ Hs1).
Qed.

Lemma node_body_steps n updated s :
  steps dec s (after (node_body dec n updated) s).
Proof.
  unfold after, node_body, bind, graph_at.
  destruct (dict_get dec n (graph s)) as [g|] eqn:Hg; [|constructor].
  apply for_each_steps with (st0 := s); [|constructor].
  intros nc a s1 Hin Hs1.
  apply neighbor_body_steps with (g := g); [|assumption].
  now rewrite (steps_graph _ _ _ _ Hs1).
Qed.

Lemma update_routing_steps st : steps dec st (after (update_routing dec) st).
Proof.
  unfold after. rewrite update_routing_eq.
  apply for_each_steps with (st0 := st); [|constructor].
  intros n a s _ _. apply node_body_steps.
Qed.

Lemma rounds_steps k st : steps dec st (rounds dec k st).
Proof.
  induction k as [|k IH]; simpl; [constructor|].
  eapply steps_trans; [exact IH | apply update_routing_steps].
Qed.

(** *** A call that returns [False] has written nothing *)

Lemma relax_false n m c d updated s s' :
  relax dec n m c d updated s = (Ok false, s') -> updated = false /\ s' = s.
Proof.
  rewrite relax_eq. unfold relax_result.
  destruct (entry dec s m d) as [e|]; [|discriminate].
  destruct (py_add c (fst e)) as [new|x]; [|discriminate].
  destruct (entry dec s n d) as [best|]; [|discriminate].
  destruct (cost_ltb new (fst best)); [discriminate|].
  intros H. inversion H; subst. split; reflexivity.
Qed.

Lemma neighbor_body_false n nc updated s s' :
  neighbor_body dec n nc updated s = (Ok false, s') -> updated = false /\ s' = s.
Proof.
  unfold neighbor_body, bind, table_at.
  destruct (dict_get dec (fst nc) (routing_tables s)) as [t|]; [|discriminate].
  apply for_each_false. intros dest a s1 s2 _. apply relax_false.
Qed.

Lemma node_body_false n updated s s' :
  node_body dec n updated s = (Ok false, s') -> updated = false /\ s' = s.
Proof.
  unfold node_body, bind, graph_at.
  destruct (dict_get dec n (graph s)) as [g|]; [|discriminate].
  apply for_each_false. intros nc a s1 s2 _. apply neighbor_body_false.
Qed.

Lemma update_routing_false st st' :
  update_routing dec st = (Ok false, st') -> st' = st.
Proof.
  rewrite update_routing_eq. intros H.
  apply for_each_false in H; [tauto|].
  intros n a s1 s2 _. apply node_body_false.
Qed.
End LoopFacts.

(** ** Well-formed engines *)

Section WellFormed.
Variable node : Type.
Variable dec : forall x y : node, {x = y} + {x <> y}.

Implicit Types (st : Network node) (n m s d : node).

Lemma wf_edge_link st n g m c :
  wf dec st -> dict_get dec n (graph st) = Some g -> In (m, c) g ->
  link dec st n m = Some c.
Proof.
  intros Hwf Hg Hin. unfold link. rewrite Hg.
  apply dict_NoDup_In_get; [|assumption].
  eapply wf_graph_NoDup; eauto.
Qed.

Lemma link_edge st n m c :
  link dec st n m = Some c ->
  exists g, dict_get dec n (graph st) = Some g /\ In (m, c) g.
Proof.
  unfold link. destruct (dict_get dec n (graph st)) as [g|]; [|discriminate].
  intros H. exists g. split; [reflexivity|]. eapply dict_get_Some_In; eauto.
Qed.

Lemma wf_entry st n d :
  wf dec st -> In n (nodes st) -> In d (nodes st) ->
  exists e, entry dec st n d = Some e.
Proof.
  intros Hwf Hn Hd. destruct (wf_table _ _ _ Hwf n Hn) as (ks & Hks & Hiff).
  unfold table_keys in Hks. rewrite entry_table.
  destruct (table dec st n) as [t|]; [|discriminate].
  simpl in Hks. inversion Hks; subst.
  apply dict_keys_In_get. now apply Hiff.
Qed.

Lemma wf_entry_dest st n d e :
  wf dec st -> In n (nodes st) -> entry dec st n d = Some e -> In d (nodes st).
Proof.
  intros Hwf Hn He. destruct (wf_table _ _ _ Hwf n Hn) as (ks & Hks & Hiff).
  unfold table_keys in Hks. rewrite entry_table in He.
  destruct (table dec st n) as [t|]; [|discriminate].
  simpl in Hks. inversion Hks; subst.
  apply Hiff. eapply dict_get_In_keys; eauto.
Qed.

(** *** Writes keep the shape *)

Lemma wf_put_entry st n d e :
  wf dec st -> In d (nodes st) -> wf dec (put_entry dec n d e st).
Proof.
  intros Hwf Hd.
  destruct (table dec st n) as [t|] eqn:Ht.
  2:{ unfold put_entry. unfold table in Ht. now rewrite Ht. }
  constructor; rewrite ?put_entry_nodes, ?put_entry_graph;
    try solve [destruct Hwf; eauto].
  intros n' Hn'. destruct (wf_table _ _ _ Hwf n' Hn') as (ks & Hks & Hiff).
  unfold table_keys in *. rewrite (put_entry_table _ _ _ _ _ _ _ _ Ht).
  destruct (dec n n') as [->|Hne]; [|eauto].
  rewrite Ht in Hks. simpl in *. inversion Hks; subst.
  eexists. split; [reflexivity|].
  intros x. rewrite dict_keys_set_In, Hiff. intuition congruence.
Qed.

Lemma wf_relax_step st st' : wf dec st -> relax_step dec st st' -> wf dec st'.
Proof.
  intros Hwf H. destruct H as [n m g c d e best new Hg Hin He Hb Hadd Hlt].
  apply wf_put_entry; [assumption|].
  eapply wf_entry_dest; eauto. eapply wf_graph_keys; eauto.
Qed.

Lemma wf_steps st st' : wf dec st -> steps dec st st' -> wf dec st'.
Proof.
  intros Hwf H. induction H; [assumption|].
  eauto using wf_relax_step.
Qed.

Lemma graph_nonneg_steps st st' :
  graph_nonneg dec st -> steps dec st st' -> graph_nonneg dec st'.
Proof.
  intros H Hs. unfold graph_nonneg. now rewrite (steps_graph _ _ _ _ Hs).
Qed.

Lemma graph_convertible_steps st st' :
  graph_convertible dec st -> steps dec st st' -> graph_convertible dec st'.
Proof.
  intros H Hs. unfold graph_convertible. now rewrite (steps_graph _ _ _ _ Hs).
Qed.

(** *** The constructor and [add_link] *)

Lemma put_link_nodes n1 n2 c st : nodes (put_link dec n1 n2 c st) = nodes st.
Proof. unfold put_link. destruct (dict_get dec n1 (graph st)); reflexivity. Qed.

Lemma put_link_tables n1 n2 c st :
  routing_tables (put_link dec n1 n2 c st) = routing_tables st.
Proof. unfold put_link. destruct (dict_get dec n1 (graph st)); reflexivity. Qed.

Lemma put_link_graph n1 n2 c st g n :
  dict_get dec n1 (graph st) = Some g ->
  dict_get dec n (graph (put_link dec n1 n2 c st))
  = if dec n1 n then Some (dict_set dec n2 c g) else dict_get dec n (graph st).
Proof.
  unfold put_link. intros H. rewrite H. simpl. apply dict_get_set.
Qed.

Lemma set_link_eq n1 n2 c st :
  set_link dec n1 n2 c st
  = match dict_get dec n1 (graph st) with
    | Some _ => (Ok tt, put_link dec n1 n2 c st)
    | None => (Raise KeyError, st)
    end.
Proof.
  unfold set_link, bind, graph_at.
  destruct (dict_get dec n1 (graph st)); reflexivity.
Qed.

Lemma add_link_eq n1 n2 c st :
  add_link dec n1 n2 c st
  = match dict_get dec n1 (graph st) with
    | None => (Raise KeyError, st)
    | Some _ =>
        match dict_get dec n2 (graph (put_link dec n1 n2 c st)) with
        | None => (Raise KeyError, put_link dec n1 n2 c st)
        | Some _ =>
            (Ok tt, put_link dec n2 n1 c (put_link dec n1 n2 c st))
        end
    end.
Proof.
  unfold add_link, bind. rewrite set_link_eq.
  destruct (dict_get dec n1 (graph st)); [|reflexivity].
  rewrite set_link_eq. reflexivity.
Qed.

Lemma wf_put_link st n1 n2 c :
  wf dec st -> In n2 (nodes st) -> wf dec (put_link dec n1 n2 c st).
Proof.
  intros Hwf H2.
  destruct (dict_get dec n1 (graph st)) as [g1|] eqn:Hg1.
  2:{ unfold put_link. now rewrite Hg1. }
  assert (Hget := fun n => put_link_graph n1 n2 c st g1 n Hg1).
  constructor; rewrite ?put_link_nodes.
  - intros n Hn. rewrite Hget. destruct (dec n1 n); [eauto|].
    eapply wf_graph_at; eauto.
  - intros n g. rewrite Hget. destruct (dec n1 n) as [<-|Hne].
    + intros _. eapply wf_graph_keys; eauto.
    + eapply wf_graph_keys; eauto.
  - intros n g m c0. rewrite Hget. destruct (dec n1 n) as [<-|Hne].
    + intros Hg Hin. inversion Hg; subst.
      apply dict_set_In in Hin. destruct Hin as [[-> _]|Hin]; [assumption|].
      eapply wf_neighbor; eauto.
    + eapply wf_neighbor; eauto.
  - intros n g. rewrite Hget. destruct (dec n1 n) as [<-|Hne].
    + intros Hg. inversion Hg; subst. apply dict_keys_set_NoDup.
      eapply wf_graph_NoDup; eauto.
    + eapply wf_graph_NoDup; eauto.
  - intros n Hn. unfold table_keys, table. rewrite put_link_tables.
    apply (wf_table _ _ _ Hwf n Hn).
Qed.

Lemma wf_add_link st n1 n2 c st' :
  wf dec st -> add_link dec n1 n2 c st = (Ok tt, st') -> wf dec st'.
Proof.
  intros Hwf. rewrite add_link_eq.
  destruct (dict_get dec n1 (graph st)) as [g1|] eqn:Hg1; [|discriminate].
  destruct (dict_get dec n2 (graph (put_link dec n1 n2 c st))) as [g2|] eqn:Hg2;
    [|discriminate].
  intros H. inversion H; subst.
  assert (H1 : In n1 (nodes st)) by (eapply wf_graph_keys; eauto).
  assert (H2 : In n2 (nodes st)).
  { rewrite (put_link_graph _ _ _ _ _ _ Hg1) in Hg2.
    destruct (dec n1 n2) as [<-|Hne]; [assumption|].
    eapply wf_graph_keys; eauto. }
  apply wf_put_link; [apply wf_put_link; assumption|].
  now rewrite put_link_nodes.
Qed.

Lemma add_link_tables n1 n2 c st :
  routing_tables (after (add_link dec n1 n2 c) st) = routing_tables st.
Proof.
  unfold after. rewrite add_link_eq.
  destruct (dict_get dec n1 (graph st)); [|reflexivity].
  destruct (dict_get dec n2 (graph (put_link dec n1 n2 c st))); simpl;
    now rewrite ?put_link_tables.
Qed.

Lemma add_link_nodes n1 n2 c st :
  nodes (after (add_link dec n1 n2 c) st) = nodes st.
Proof.
  unfold after. rewrite add_link_eq.
  destruct (dict_get dec n1 (graph st)); [|reflexivity].
  destruct (dict_get dec n2 (graph (put_link dec n1 n2 c st))); simpl;
    now rewrite ?put_link_nodes.
Qed.

Lemma wf_init ns : wf dec (__init__ dec ns).
Proof.
  constructor; simpl.
  - intros n Hn. rewrite dict_comp_get.
    destruct (in_dec dec n ns); [eauto | contradiction].
  - intros n g. rewrite dict_comp_get.
    destruct (in_dec dec n ns); [auto | discriminate].
  - intros n g m c. rewrite dict_comp_get.
    destruct (in_dec dec n ns); [|discriminate].
    intros H. inversion H; subst. simpl. tauto.
  - intros n g. rewrite dict_comp_get.
    destruct (in_dec dec n ns); [|discriminate].
    intros H. inversion H; subst. constructor.
  - intros n Hn. unfold table_keys, table. simpl. rewrite dict_comp_get.
    destruct (in_dec dec n ns); [|contradiction].
    simpl. eexists. split; [reflexivity|].
    intros d. apply dict_comp_keys.
Qed.

Lemma all_inf_init ns : all_inf dec (__init__ dec ns).
Proof.
  intros s d e. unfold entry. simpl. rewrite dict_comp_get.
  destruct (in_dec dec s ns); [|discriminate].
  rewrite dict_comp_get. destruct (in_dec dec d ns); congruence.
Qed.

Lemma add_links_spec links :
  forall st st',
    add_links dec links st = (Ok tt, st') ->
    wf dec st ->
    wf dec st' /\ nodes st' = nodes st /\ routing_tables st' = routing_tables st.
Proof.
  unfold add_links.
  induction links as [|[[n1 n2] c] links IH]; intros st st'; simpl.
  - unfold ret. intros H Hwf. inversion H; subst. auto.
  - unfold bind.
    destruct (add_link dec n1 n2 c st) as [[[]|x] s1] eqn:E; [|discriminate].
    intros Hrest Hwf.
    destruct (IH _ _ Hrest (wf_add_link _ _ _ _ _ Hwf E)) as (Hwf' & Hn & Ht).
    split; [assumption|].
    assert (s1 = after (add_link dec n1 n2 c) st) by (unfold after; now rewrite E).
    subst s1. rewrite Hn, Ht, add_link_nodes, add_link_tables. auto.
Qed.

Lemma build_spec ns links st :
  build dec ns links = (Ok tt, st) ->
  wf dec st /\ nodes st = ns /\ all_inf dec st.
Proof.
  unfold build. intros H.
  destruct (add_links_spec _ _ _ H (wf_init ns)) as (Hwf & Hn & Ht).
  split; [assumption|]. split; [assumption|].
  intros s d e. unfold entry. rewrite Ht. apply all_inf_init.
Qed.
End WellFormed.

(** ** Paths in the graph *)

Section Paths.
Variable node : Type.
Variable dec : forall x y : node, {x = y} + {x <> y}.

Implicit Types (st : Network node) (n m s d : node) (p : list node).

Lemma py_add_cadd c x y : py_add c x = Ok y -> y = cadd c x.
Proof.
  destruct x; simpl; [congruence|].
  destruct (float_convertible c); congruence.
Qed.

Lemma cadd_mono c x y : cost_le x y -> cost_le (cadd c x) (cadd c y).
Proof. destruct x, y; simpl; try tauto; lia. Qed.

Lemma last_cons (m : node) p s : last (m :: p) s = last p m.
Proof.
  revert m s. induction p as [|a p IH]; intros m s; [reflexivity|].
  change (last (m :: a :: p) s) with (last (a :: p) s).
  rewrite (IH a s). symmetry. apply (IH a m).
Qed.

Lemma path_cost_graph st st' s p :
  graph st' = graph st -> path_cost dec st' s p = path_cost dec st s p.
Proof.
  intros Hg. revert s. induction p as [|m p IH]; intros s; simpl; [reflexivity|].
  unfold link. rewrite Hg, IH. reflexivity.
Qed.

Lemma path_cost_nonneg st s p z :
  graph_nonneg dec st -> path_cost dec st s p = Some z -> 0 <= z.
Proof.
  intros Hnn. revert s z. induction p as [|m p IH]; intros s z; simpl.
  - intros H. inversion H. lia.
  - destruct (link dec st s m) as [w|] eqn:Hl; [|discriminate].
    destruct (path_cost dec st m p) as [z0|] eqn:Hp; [|discriminate].
    intros H. inversion H; subst.
    destruct (link_edge _ _ _ _ _ _ Hl) as (g & Hg & Hin).
    specialize (Hnn _ _ _ _ Hg Hin). specialize (IH _ _ Hp). lia.
Qed.

Lemma path_cost_app st s p1 p2 :
  path_cost dec st s (p1 ++ p2)
  = match path_cost dec st s p1, path_cost dec st (last p1 s) p2 with
    | Some z1, Some z2 => Some (z1 + z2)
    | _, _ => None
    end.
Proof.
  revert s. induction p1 as [|m p1 IH]; intros s.
  - simpl. destruct (path_cost dec st s p2); [f_equal; lia | reflexivity].
  - rewrite last_cons. simpl. rewrite IH.
    destruct (link dec st s m) as [w|]; [|reflexivity].
    destruct (path_cost dec st m p1) as [z1|]; [|reflexivity].
    destruct (path_cost dec st (last p1 m) p2) as [z2|]; [|reflexivity].
    f_equal. lia.
Qed.

(** The nodes on a path are nodes of the engine. *)
Lemma path_nodes st s p z :
  wf dec st -> path_cost dec st s p = Some z -> forall x, In x p -> In x (nodes st).
Proof.
  intros Hwf. revert s z. induction p as [|m p IH]; intros s z; simpl; [tauto|].
  destruct (link dec st s m) as [w|] eqn:Hl; [|discriminate].
  destruct (path_cost dec st m p) as [z0|] eqn:Hp; [|discriminate].
  intros _ x [<-|Hx]; [|eauto].
  destruct (link_edge _ _ _ _ _ _ Hl) as (g & Hg & Hin).
  eapply wf_neighbor; eauto.
Qed.

(** *** Removing cycles *)

Lemma path_cut_cycle st s l1 a l2 l3 z :
  graph_nonneg dec st ->
  path_cost dec st s (l1 ++ a :: l2 ++ a :: l3) = Some z ->
  exists z', path_cost dec st s (l1 ++ a :: l3) = Some z' /\ z' <= z.
Proof.
  intros Hnn.
  replace (l1 ++ a :: l2 ++ a :: l3) with ((l1 ++ [a]) ++ (l2 ++ [a]) ++ l3)
    by (rewrite <- !app_assoc; reflexivity).
  replace (l1 ++ a :: l3) with ((l1 ++ [a]) ++ l3)
    by (rewrite <- app_assoc; reflexivity).
  rewrite (path_cost_app st s (l1 ++ [a]) ((l2 ++ [a]) ++ l3)),
    (path_cost_app st s (l1 ++ [a]) l3), !last_last,
    (path_cost_app st a (l2 ++ [a]) l3), last_last.
  destruct (path_cost dec st s (l1 ++ [a])) as [z1|]; [|simpl; discriminate].
  destruct (path_cost dec st a (l2 ++ [a])) as [z2|] eqn:H2; [|simpl; discriminate].
  destruct (path_cost dec st a l3) as [z3|]; [|simpl; discriminate].
  simpl. intros H. inversion H; subst.
  apply path_cost_nonneg in H2; [|assumption].
  eexists. split; [reflexivity | lia].
Qed.

Lemma path_cut_head st s l2 l3 z :
  graph_nonneg dec st ->
  path_cost dec st s (l2 ++ s :: l3) = Some z ->
  exists z', path_cost dec st s l3 = Some z' /\ z' <= z.
Proof.
  intros Hnn.
  replace (l2 ++ s :: l3) with ((l2 ++ [s]) ++ l3)
    by (rewrite <- app_assoc; reflexivity).
  rewrite (path_cost_app st s (l2 ++ [s]) l3), last_last.
  destruct (path_cost dec st s (l2 ++ [s])) as [z2|] eqn:H2; [|simpl; discriminate].
  destruct (path_cost dec st s l3) as [z3|]; [|simpl; discriminate].
  simpl. intros H. inversion H; subst.
  apply path_cost_nonneg in H2; [|assumption].
  eexists. split; [reflexivity | lia].
Qed.

Lemma last_app_cons (l1 l3 : list node) a s : last (l1 ++ a :: l3) s = last l3 a.
Proof.
  induction l1 as [|x l1 IH]; simpl app.
  - apply last_cons.
  - rewrite last_cons. rewrite <- IH.
    destruct l1; simpl app; rewrite !last_cons; reflexivity.
Qed.

(** With non-negative costs a path can be replaced by one that repeats
    no node, ends at the same node and costs no more. *)
Lemma path_simple st :
  graph_nonneg dec st ->
  forall k s p z, (List.length p <= k)%nat ->
    path_cost dec st s p = Some z ->
    exists p' z', path_cost dec st s p' = Some z' /\ z' <= z /\
                  last p' s = last p s /\ NoDup (s :: p') /\ incl p' p.
Proof.
  intros Hnn. induction k as [|k IH]; intros s p z Hlen Hp.
  - destruct p; [|simpl in Hlen; lia].
    exists [], z. repeat split; auto; try lia.
    + constructor; [simpl; tauto | constructor].
    + apply incl_refl.
  - destruct (NoDup_dec dec (s :: p)) as [Hnd|Hdup].
    + exists p, z. repeat split; auto; try lia. apply incl_refl.
    + assert (Hd : decidable_eq node).
      { intros x y. destruct (dec x y); [left | right]; assumption. }
      apply (not_NoDup Hd) in Hdup.
      destruct Hdup as (a & l1 & l2 & l3 & Heq).
      destruct l1 as [|x l1]; simpl in Heq; inversion Heq; subst.
      * destruct (path_cut_head _ _ _ _ _ Hnn Hp) as (z1 & Hz1 & Hle).
        destruct (IH a l3 z1) as (p' & z' & H1 & H2 & H3 & H4 & H5); auto.
        { rewrite length_app in Hlen. simpl in Hlen. lia. }
        exists p', z'. repeat split; auto; try lia.
        -- rewrite H3. symmetry. apply last_app_cons.
        -- intros y Hy. apply in_or_app. right. right. auto.
      * destruct (path_cut_cycle _ _ _ _ _ _ _ Hnn Hp) as (z1 & Hz1 & Hle).
        destruct (IH x (l1 ++ a :: l3) z1) as (p' & z' & H1 & H2 & H3 & H4 & H5);
          auto.
        { rewrite !length_app in *. simpl in *. rewrite length_app in Hlen.
          simpl in Hlen. lia. }
        exists p', z'. repeat split; auto; try lia.
        -- rewrite H3, !last_app_cons. reflexivity.
        -- intros y Hy. apply H5 in Hy. apply in_app_or in Hy.
           apply in_or_app. destruct Hy as [Hy|[Hy|Hy]]; auto.
           right. left. exact Hy.
           right. right. apply in_or_app. right. right. exact Hy.
Qed.

(** A path in an engine with [N] distinct nodes can be taken with at
    most [N - 1] links. *)
Lemma path_short st s p z :
  wf dec st -> graph_nonneg dec st -> In s (nodes st) ->
  path_cost dec st s p = Some z ->
  exists p' z', path_cost dec st s p' = Some z' /\ z' <= z /\
                last p' s = last p s /\
                (List.length p' <= List.length (nodup dec (nodes st)) - 1)%nat.
Proof.
  intros Hwf Hnn Hs Hp.
  destruct (path_simple st Hnn (List.length p) s p z (le_n _) Hp)
    as (p' & z' & H1 & H2 & H3 & H4 & H5).
  exists p', z'. repeat split; auto.
  assert (Hincl : incl (s :: p') (nodup dec (nodes st))).
  { intros x [<-|Hx]; apply nodup_In; [assumption|].
    eapply path_nodes; eauto. }
  apply NoDup_incl_length in Hincl; [|assumption].
  simpl in Hincl. lia.
Qed.
End Paths.

(** ** Invariants of the routing tables *)

Section Invariants.
Variable node : Type.
Variable dec : forall x y : node, {x = y} + {x <> y}.

Implicit Types (st : Network node) (n m s d : node) (p : list node).

Lemma steps_preserve (P : Network node -> Prop) :
  (forall st st', wf dec st -> P st -> relax_step dec st st' -> P st') ->
  forall st st', wf dec st -> P st -> steps dec st st' -> P st'.
Proof.
  intros HP st st' Hwf Hst H. induction H as [|st st1 st2 H1 _ IH]; [assumption|].
  apply IH; [eapply wf_relax_step; eauto | eapply HP; eauto].
Qed.

Lemma sound_relax_step st st' :
  wf dec st -> sound dec st -> relax_step dec st st' -> sound dec st'.
Proof.
  intros Hwf Hs H.
  destruct H as [n m g c d0 e0 best new Hg Hin He Hb Hadd Hlt].
  intros s d e.
  rewrite put_entry_entry by (eapply entry_Some_table; eauto).
  assert (Hpc : forall s p,
             path_cost dec (put_entry dec n d0 (new, Some m) st) s p
             = path_cost dec st s p).
  { intros. apply path_cost_graph, put_entry_graph. }
  destruct (dec n s) as [<-|Hn]; [destruct (dec d0 d) as [<-|Hd]|].
  - intros H. inversion H; subst e. right.
    destruct (py_add_lt_inv _ _ _ _ Hadd Hlt) as (z0 & Hz0 & ->).
    destruct (Hs _ _ _ He) as [->|(z & m' & p & -> & Hp & Hlast)];
      [discriminate|].
    simpl in Hz0. inversion Hz0; subst z0.
    exists (c + z), m, (m :: p). split; [reflexivity|]. split.
    + rewrite Hpc. simpl. rewrite (wf_edge_link _ _ _ _ _ _ _ Hwf Hg Hin), Hp.
      reflexivity.
    + rewrite last_cons. exact Hlast.
  - intros H. destruct (Hs _ _ _ H) as [->|(z & m' & p & -> & Hp & Hlast)];
      [left; reflexivity|].
    right. exists z, m', p. rewrite Hpc. auto.
  - intros H. destruct (Hs _ _ _ H) as [->|(z & m' & p & -> & Hp & Hlast)];
      [left; reflexivity|].
    right. exists z, m', p. rewrite Hpc. auto.
Qed.

Lemma sound_steps st st' :
  wf dec st -> sound dec st -> steps dec st st' -> sound dec st'.
Proof. apply (steps_preserve (sound dec)). apply sound_relax_step. Qed.

Lemma nonneg_relax_step st st' :
  wf dec st -> graph_nonneg dec st /\ nonneg_entries dec st ->
  relax_step dec st st' -> graph_nonneg dec st' /\ nonneg_entries dec st'.
Proof.
  intros Hwf [Hg0 Hnn] H.
  split; [eapply graph_nonneg_steps; eauto using steps_one|].
  destruct H as [n m g c d0 e0 best new Hg Hin He Hb Hadd Hlt].
  intros s d z h.
  rewrite put_entry_entry by (eapply entry_Some_table; eauto).
  destruct (dec n s) as [<-|Hn]; [destruct (dec d0 d) as [<-|Hd]|];
    try apply Hnn.
  intros H. inversion H; subst.
  destruct (py_add_lt_inv _ _ _ _ Hadd Hlt) as (z0 & Hz0 & Hz).
  inversion Hz; subst. destruct e0 as [c0 h0]. simpl in Hz0. subst c0.
  specialize (Hnn _ _ _ _ He). specialize (Hg0 _ _ _ _ Hg Hin). lia.
Qed.

Lemma nonneg_steps st st' :
  wf dec st -> graph_nonneg dec st -> nonneg_entries dec st ->
  steps dec st st' -> nonneg_entries dec st'.
Proof.
  intros Hwf Hg Hnn H.
  apply (steps_preserve (fun st => graph_nonneg dec st /\ nonneg_entries dec st)
           nonneg_relax_step st st'); auto.
Qed.

Lemma self_zero_relax_step st st' :
  wf dec st -> (graph_nonneg dec st /\ nonneg_entries dec st) /\ self_zero dec st ->
  relax_step dec st st' ->
  (graph_nonneg dec st' /\ nonneg_entries dec st') /\ self_zero dec st'.
Proof.
  intros Hwf [Hnn Hz] H.
  split; [eapply nonneg_relax_step; eauto|].
  destruct Hnn as [Hg0 Hnn].
  destruct H as [n m g c d0 e0 best new Hg Hin He Hb Hadd Hlt].
  intros x. rewrite put_entry_nodes. intros Hx.
  rewrite put_entry_entry by (eapply entry_Some_table; eauto).
  destruct (dec n x) as [<-|Hn]; [destruct (dec d0 n) as [->|Hd]|]; auto.
  exfalso.
  rewrite (Hz _ Hx) in Hb. inversion Hb; subst best.
  destruct (py_add_lt_inv _ _ _ _ Hadd Hlt) as (z0 & Hz0 & ->).
  destruct e0 as [c0 h0]. simpl in Hz0. subst c0.
  specialize (Hnn _ _ _ _ He). specialize (Hg0 _ _ _ _ Hg Hin).
  simpl in Hlt. apply Z.ltb_lt in Hlt. lia.
Qed.

Lemma self_zero_steps st st' :
  wf dec st -> graph_nonneg dec st -> nonneg_entries dec st -> self_zero dec st ->
  steps dec st st' -> self_zero dec st'.
Proof.
  intros Hwf Hg Hnn Hz H.
  apply (steps_preserve
           (fun st => (graph_nonneg dec st /\ nonneg_entries dec st) /\
                      self_zero dec st)
           self_zero_relax_step st st'); auto.
Qed.

Lemma hop_relax_step st st' :
  wf dec st -> hop_ok dec st -> relax_step dec st st' -> hop_ok dec st'.
Proof.
  intros Hwf Hh H. pose proof H as Hstep.
  destruct H as [n m g c d0 e0 best new Hg Hin He Hb Hadd Hlt].
  intros s d z m' Hsd.
  rewrite link_put_entry.
  rewrite (put_entry_entry _ dec n d0 _ st s d)
    by (eapply entry_Some_table; eauto).
  destruct (dec n s) as [<-|Hn]; [destruct (dec d0 d) as [<-|Hd]|].
  - intros H. inversion H; subst.
    destruct (relax_step_entry _ _ _ _ _ _ _ Hstep He) as (e' & He' & Himp).
    exists c, e'. split; [eapply wf_edge_link; eauto|]. split; [exact He'|].
    rewrite (py_add_cadd _ _ _ Hadd).
    apply cadd_mono. now apply improves_le.
  - intros H. destruct (Hh _ _ _ _ Hsd H) as (w & e & Hl & He1 & Hle).
    destruct (relax_step_entry _ _ _ _ _ _ _ Hstep He1) as (e' & He' & Himp).
    exists w, e'. split; [exact Hl|]. split; [exact He'|].
    eapply cost_le_trans; [apply cadd_mono, improves_le; eassumption | exact Hle].
  - intros H. destruct (Hh _ _ _ _ Hsd H) as (w & e & Hl & He1 & Hle).
    destruct (relax_step_entry _ _ _ _ _ _ _ Hstep He1) as (e' & He' & Himp).
    exists w, e'. split; [exact Hl|]. split; [exact He'|].
    eapply cost_le_trans; [apply cadd_mono, improves_le; eassumption | exact Hle].
Qed.

Lemma hop_steps st st' :
  wf dec st -> hop_ok dec st -> steps dec st st' -> hop_ok dec st'.
Proof. apply (steps_preserve (hop_ok dec)). apply hop_relax_step. Qed.

(** *** [initialize_tables] *)

Lemma initialize_loop l :
  forall st,
    (forall n, In n l -> table dec st n <> None) ->
    exists st',
      for_each l (fun n (_ : unit) => set_entry dec n n (Fin 0, Some n)) tt st
      = (Ok tt, st') /\
      nodes st' = nodes st /\ graph st' = graph st /\
      (forall s d,
          entry dec st' s d
          = if dec s d
            then (if in_dec dec s l then Some (Fin 0, Some s)
                  else entry dec st s d)
            else entry dec st s d) /\
      (wf dec st -> (forall n, In n l -> In n (nodes st)) -> wf dec st').
Proof.
  induction l as [|x l IH]; intros st Ht.
  - exists st. simpl.
    split; [reflexivity|]. split; [reflexivity|]. split; [reflexivity|].
    split; [|auto].
    intros s d. destruct (dec s d); reflexivity.
  - simpl. unfold bind. rewrite set_entry_eq.
    destruct (table dec st x) as [t|] eqn:Hx.
    2:{ exfalso. apply (Ht x); [now left | assumption]. }
    set (st1 := put_entry dec x x (Fin 0, Some x) st).
    destruct (IH st1) as (st' & Hrun & Hn & Hg & He & Hwf).
    { intros n Hn. unfold st1. rewrite (put_entry_table _ _ _ _ _ _ _ _ Hx).
      destruct (dec x n); [discriminate|]. apply Ht. now right. }
    exists st'. split; [exact Hrun|].
    split; [rewrite Hn; apply put_entry_nodes|].
    split; [rewrite Hg; apply put_entry_graph|].
    split.
    + intros s d. rewrite He. unfold st1.
      rewrite put_entry_entry by congruence.
      destruct (dec s d) as [<-|Hsd].
      * destruct (in_dec dec s l) as [Hin|Hnin];
          destruct (in_dec dec s (x :: l)) as [Hin'|Hnin'];
          destruct (dec x s) as [->|Hxs];
          try reflexivity; simpl in *; try tauto.
      * destruct (dec x s) as [->|Hxs]; [|reflexivity].
        destruct (dec s d); [contradiction | reflexivity].
    + intros Hwf0 Hin. apply Hwf.
      * apply wf_put_entry; [assumption | apply Hin; now left].
      * intros n Hn'. unfold st1. rewrite put_entry_nodes. apply Hin. now right.
Qed.

Lemma initialize_tables_spec st :
  wf dec st ->
  exists st',
    initialize_tables dec st = (Ok tt, st') /\
    wf dec st' /\ nodes st' = nodes st /\ graph st' = graph st /\
    (forall s d,
        entry dec st' s d
        = if dec s d
          then (if in_dec dec s (nodes st) then Some (Fin 0, Some s)
                else entry dec st s d)
          else entry dec st s d).
Proof.
  intros Hwf. unfold initialize_tables.
  destruct (initialize_loop (nodes st) st) as (st' & Hrun & Hn & Hg & He & Hwf').
  - intros n Hn. destruct (wf_table _ _ _ Hwf n Hn) as (ks & Hks & _).
    unfold table_keys in Hks.
    destruct (table dec st n); [discriminate | simpl in Hks; discriminate].
  - exists st'. split; [exact Hrun|]. split; [apply Hwf'; auto|]. auto.
Qed.
End Invariants.

Lemma cost_le_ltb_false a b : cost_le b a -> cost_ltb a b = false.
Proof.
  destruct a, b; simpl; try tauto; try reflexivity.
  intros H. apply Z.ltb_ge. exact H.
Qed.

(** ** One round *)

Section Rounds.
Variable node : Type.
Variable dec : forall x y : node, {x = y} + {x <> y}.

Implicit Types (st : Network node) (n m s d : node) (p : list node).

Lemma covered_stable st0 n m c d st st' :
  steps dec st st' -> covered dec st0 n m c d st -> covered dec st0 n m c d st'.
Proof.
  intros Hs Hc e0 He0. destruct (Hc e0 He0) as (e & He & Hle).
  destruct (steps_entry _ _ _ _ _ _ _ Hs He) as (e' & He' & Himp).
  exists e'. split; [assumption|].
  eapply cost_le_trans; [apply improves_le; eassumption | exact Hle].
Qed.

Lemma relax_cover st0 n m c d updated st b st' :
  steps dec st0 st ->
  relax dec n m c d updated st = (Ok b, st') ->
  covered dec st0 n m c d st'.
Proof.
  intros Hs. rewrite relax_eq. unfold relax_result.
  destruct (entry dec st m d) as [e1|] eqn:He1; [|discriminate].
  destruct (py_add c (fst e1)) as [new|x] eqn:Hadd; [|discriminate].
  destruct (entry dec st n d) as [best|] eqn:Hb; [|discriminate].
  assert (Hnew : forall e0, entry dec st0 m d = Some e0 ->
                            cost_le new (cadd c (fst e0))).
  { intros e0 He0.
    destruct (steps_entry _ _ _ _ _ _ _ Hs He0) as (e' & He' & Himp).
    rewrite He1 in He'. inversion He'; subst e'.
    rewrite (py_add_cadd _ _ _ Hadd). apply cadd_mono. now apply improves_le. }
  destruct (cost_ltb new (fst best)) eqn:Hlt; intros H; inversion H; subst;
    intros e0 He0.
  - exists (new, Some m). split; [|apply Hnew; assumption].
    rewrite put_entry_entry by (eapply entry_Some_table; eauto).
    destruct (dec n n); [|congruence]. destruct (dec d d); congruence.
  - exists best. split; [assumption|].
    eapply cost_le_trans; [apply cost_ltb_false_le; eassumption|].
    now apply Hnew.
Qed.

Lemma neighbor_body_cover st0 n m c g updated st b st' :
  steps dec st0 st ->
  dict_get dec n (graph st) = Some g -> In (m, c) g ->
  neighbor_body dec n (m, c) updated st = (Ok b, st') ->
  steps dec st st' /\ forall d, covered dec st0 n m c d st'.
Proof.
  intros Hs Hg Hin. unfold neighbor_body, bind, table_at. simpl fst. simpl snd.
  destruct (dict_get dec m (routing_tables st)) as [t|] eqn:Ht; [|discriminate].
  intros Hrun.
  destruct (for_each_cover _ dec _ _
              (fun dest updated => relax dec n m c dest updated)
              st0 (fun d st1 => covered dec st0 n m c d st1) (dict_keys t))
    with (acc := updated) (st := st) (b := b) (st' := st')
    as [Hsteps Hall]; auto.
  - intros y s s'. apply covered_stable.
  - intros x a s a' s' _ Hs1 Hbody. split.
    + replace s' with (after (relax dec n m c x a) s)
        by (unfold after; now rewrite Hbody).
      apply relax_steps with (g := g); [|assumption].
      rewrite (steps_graph _ _ _ _ Hs1), <- (steps_graph _ _ _ _ Hs). exact Hg.
    + eapply relax_cover; eauto.
  - split; [assumption|]. intros d e0 He0. apply Hall; [|assumption].
    pose proof (steps_table_keys _ dec _ _ m Hs) as Hk.
    unfold table_keys, table in Hk. rewrite Ht in Hk.
    unfold entry in He0.
    destruct (dict_get dec m (routing_tables st0)) as [t0|]; [|discriminate].
    simpl in Hk. inversion Hk as [Hk']. rewrite Hk'.
    eapply dict_get_In_keys; eauto.
Qed.

Lemma node_body_cover st0 n updated st b st' :
  steps dec st0 st ->
  node_body dec n updated st = (Ok b, st') ->
  steps dec st st' /\
  forall g m c d, dict_get dec n (graph st0) = Some g -> In (m, c) g ->
                  covered dec st0 n m c d st'.
Proof.
  intros Hs. unfold node_body, bind, graph_at.
  destruct (dict_get dec n (graph st)) as [g|] eqn:Hg; [|discriminate].
  intros Hrun.
  destruct (for_each_cover _ dec _ _ (neighbor_body dec n)
              st0 (fun nc st1 => forall d, covered dec st0 n (fst nc) (snd nc) d st1) g)
    with (acc := updated) (st := st) (b := b) (st' := st')
    as [Hsteps Hall]; auto.
  - intros y s s' Hss HQ d. eapply covered_stable; eauto.
  - intros [m c] a s a' s' Hin Hs1 Hbody. simpl.
    eapply neighbor_body_cover; eauto.
    rewrite (steps_graph _ _ _ _ Hs1), <- (steps_graph _ _ _ _ Hs). exact Hg.
  - split; [assumption|]. intros g' m c d Hg' Hin.
    rewrite <- (steps_graph _ _ _ _ Hs), Hg in Hg'. inversion Hg'; subst g'.
    apply (Hall (m, c) Hin d).
Qed.

(** The round lemma: every triple has been offered to its source. *)
Lemma update_routing_cover st0 b st' :
  update_routing dec st0 = (Ok b, st') ->
  forall n g m c d, In n (nodes st0) ->
    dict_get dec n (graph st0) = Some g -> In (m, c) g ->
    covered dec st0 n m c d st'.
Proof.
  rewrite update_routing_eq. intros Hrun.
  destruct (for_each_cover _ dec _ _ (node_body dec)
              st0 (fun n st1 => forall g m c d,
                       dict_get dec n (graph st0) = Some g -> In (m, c) g ->
                       covered dec st0 n m c d st1) (nodes st0))
    with (acc := false) (st := st0) (b := b) (st' := st')
    as [Hsteps Hall]; auto.
  - intros y s s' Hss HQ g m c d Hg Hin. eapply covered_stable; eauto.
  - intros n a s a' s' _ Hs1 Hbody. eapply node_body_cover; eauto.
  - constructor.
  - intros n g m c d Hn Hg Hin. eapply Hall; eauto.
Qed.

Lemma converged_settled st :
  update_routing dec st = (Ok false, st) -> settled dec st.
Proof.
  intros H n g m c d Hn Hg Hin. eapply update_routing_cover; eauto.
Qed.

(** *** A settled state is a fixed point *)

Lemma relax_fix n m c d st e0 :
  float_convertible c = true ->
  entry dec st m d = Some e0 ->
  covered dec st n m c d st ->
  relax dec n m c d false st = (Ok false, st).
Proof.
  intros Hc He0 Hcov. rewrite relax_eq. unfold relax_result. rewrite He0.
  destruct (Hcov e0 He0) as (e & He & Hle). rewrite He.
  assert (Hadd : py_add c (fst e0) = Ok (cadd c (fst e0))).
  { destruct (fst e0); simpl; [reflexivity | now rewrite Hc]. }
  rewrite Hadd. now rewrite cost_le_ltb_false.
Qed.

Lemma update_routing_fix st :
  wf dec st -> graph_convertible dec st -> settled dec st ->
  update_routing dec st = (Ok false, st).
Proof.
  intros Hwf Hconv Hset. rewrite update_routing_eq.
  apply for_each_fix. intros n Hn.
  unfold node_body, bind, graph_at.
  destruct (wf_graph_at _ _ _ Hwf n Hn) as [g Hg]. rewrite Hg.
  apply for_each_fix. intros [m c] Hin.
  unfold neighbor_body, bind, table_at. simpl fst. simpl snd.
  assert (Hm : In m (nodes st)) by (eapply wf_neighbor; eauto).
  destruct (wf_table _ _ _ Hwf m Hm) as (ks & Hks & _).
  unfold table_keys, table in Hks.
  destruct (dict_get dec m (routing_tables st)) as [t|] eqn:Ht;
    [|simpl in Hks; discriminate].
  apply for_each_fix. intros d Hd.
  destruct (dict_keys_In_get _ _ dec d t Hd) as [e0 He0].
  apply relax_fix with (e0 := e0).
  - eapply Hconv; eauto.
  - unfold entry. now rewrite Ht.
  - eapply Hset; eauto.
Qed.

(** *** A round on a well-formed engine does not raise *)

Lemma relax_ok n m c d updated st :
  wf dec st -> In n (nodes st) -> In m (nodes st) -> In d (nodes st) ->
  float_convertible c = true ->
  exists b, fst (relax dec n m c d updated st) = Ok b.
Proof.
  intros Hwf Hn Hm Hd Hc. rewrite relax_eq. unfold relax_result.
  destruct (wf_entry _ _ _ m d Hwf Hm Hd) as [e0 He0]. rewrite He0.
  assert (Hadd : py_add c (fst e0) = Ok (cadd c (fst e0))).
  { destruct (fst e0); simpl; [reflexivity | now rewrite Hc]. }
  rewrite Hadd.
  destruct (wf_entry _ _ _ n d Hwf Hn Hd) as [e He]. rewrite He.
  destruct (cost_ltb (cadd c (fst e0)) (fst e)); simpl; eauto.
Qed.

Lemma update_routing_ok st :
  wf dec st -> graph_convertible dec st ->
  exists b, fst (update_routing dec st) = Ok b.
Proof.
  intros Hwf Hconv. rewrite update_routing_eq.
  apply for_each_ok with (dec := dec) (st0 := st); [|constructor].
  intros n a s Hn Hs. split; [apply node_body_steps|].
  unfold node_body, bind, graph_at.
  assert (Hwfs : wf dec s) by (eapply wf_steps; eauto).
  rewrite <- (steps_nodes _ _ _ _ Hs) in Hn.
  destruct (wf_graph_at _ _ _ Hwfs n Hn) as [g Hg]. rewrite Hg.
  apply for_each_ok with (dec := dec) (st0 := s); [|constructor].
  intros [m c] a1 s1 Hin Hs1.
  assert (Hg1 : dict_get dec n (graph s1) = Some g)
    by (now rewrite (steps_graph _ _ _ _ Hs1)).
  split; [eapply neighbor_body_steps; eauto|].
  unfold neighbor_body, bind, table_at. simpl fst. simpl snd.
  assert (Hwf1 : wf dec s1) by (eapply wf_steps; eauto).
  assert (Hm : In m (nodes s1)) by (eapply wf_neighbor; eauto).
  destruct (wf_table _ _ _ Hwf1 m Hm) as (ks & Hks & Hiff).
  unfold table_keys, table in Hks.
  destruct (dict_get dec m (routing_tables s1)) as [t|] eqn:Ht;
    [|simpl in Hks; discriminate].
  simpl in Hks. inversion Hks; subst ks.
  apply for_each_ok with (dec := dec) (st0 := s1); [|constructor].
  intros d a2 s2 Hd Hs2.
  assert (Hg2 : dict_get dec n (graph s2) = Some g)
    by (now rewrite (steps_graph _ _ _ _ Hs2)).
  split; [eapply relax_steps; eauto|].
  assert (Hwf2 : wf dec s2) by (eapply wf_steps; eauto).
  apply relax_ok; auto.
  - eapply wf_graph_keys; eauto.
  - eapply wf_neighbor; eauto.
  - rewrite (steps_nodes _ _ _ _ Hs2). now apply Hiff.
  - apply (Hconv n g m c); [|assumption].
    now rewrite <- (steps_graph _ _ _ _ Hs), <- (steps_graph _ _ _ _ Hs1).
Qed.
End Rounds.

(** ** Engines: constructor, links, initialization, rounds *)

Section Engine.
Variable node : Type.
Variable dec : forall x y : node, {x = y} + {x <> y}.

Implicit Types (st : Network node) (n m s d : node) (p : list node).

Lemma graph_all_spec P st n g m c :
  graph_all P st = true ->
  dict_get dec n (graph st) = Some g -> In (m, c) g -> P c = true.
Proof.
  unfold graph_all. rewrite forallb_forall. intros H Hg Hin.
  apply dict_get_Some_In in Hg. specialize (H _ Hg). simpl in H.
  rewrite forallb_forall in H. apply (H _ Hin).
Qed.

Lemma graph_nonnegb_sound st : graph_nonnegb st = true -> graph_nonneg dec st.
Proof.
  intros H n g m c Hg Hin. apply Z.leb_le.
  apply (graph_all_spec _ _ _ _ _ _ H Hg Hin).
Qed.

Lemma graph_convertibleb_sound st :
  graph_convertibleb st = true -> graph_convertible dec st.
Proof.
  intros H n g m c Hg Hin. apply (graph_all_spec _ _ _ _ _ _ H Hg Hin).
Qed.

(** *** The state after initialization and [k] rounds *)

Lemma run_inv_start ns links st0 :
  build dec ns links = (Ok tt, st0) ->
  initialize_tables dec st0 = (Ok tt, after (initialize_tables dec) st0) /\
  run_inv dec st0 (after (initialize_tables dec) st0).
Proof.
  intros Hb. destruct (build_spec _ _ _ _ _ Hb) as (Hwf & Hns & Hinf).
  destruct (initialize_tables_spec _ dec st0 Hwf)
    as (st1 & Hrun & Hwf1 & Hn1 & Hg1 & He1).
  unfold after. rewrite Hrun. simpl. split; [reflexivity|].
  assert (Hcases : forall s d e, entry dec st1 s d = Some e ->
                     (s = d /\ In s (nodes st0) /\ e = (Fin 0, Some s)) \/
                     e = (Inf, None)).
  { intros s d e. rewrite He1.
    destruct (dec s d) as [<-|Hsd]; [destruct (in_dec dec s (nodes st0))|].
    - intros H. inversion H. left. auto.
    - intros H. right. eapply Hinf; eauto.
    - intros H. right. eapply Hinf; eauto. }
  constructor; auto.
  - intros s d e He. destruct (Hcases _ _ _ He) as [(<- & _ & ->) | -> ];
      [right | left; reflexivity].
    exists 0, s, []. simpl. auto.
  - intros s d z m Hsd He.
    destruct (Hcases _ _ _ He) as [(Heq & _)|H]; [contradiction | discriminate].
  - intros _. split.
    + intros s d z h He.
      destruct (Hcases _ _ _ He) as [(_ & _ & H)|H]; inversion H. lia.
    + intros x Hx. rewrite He1. rewrite Hn1 in Hx.
      destruct (dec x x); [|congruence].
      destruct (in_dec dec x (nodes st0)); [reflexivity | contradiction].
Qed.

Lemma run_inv_steps st0 st st' :
  run_inv dec st0 st -> steps dec st st' -> run_inv dec st0 st'.
Proof.
  intros [Hwf Hn Hg Hs Hh Hnn] H.
  constructor.
  - eapply wf_steps; eauto.
  - rewrite (steps_nodes _ _ _ _ H). exact Hn.
  - rewrite (steps_graph _ _ _ _ H). exact Hg.
  - eapply sound_steps; eauto.
  - eapply hop_steps; eauto.
  - intros Hg0. destruct (Hnn Hg0) as [H1 H2].
    assert (Hgn : graph_nonneg dec st) by (unfold graph_nonneg; now rewrite Hg).
    split; [eapply nonneg_steps; eauto | eapply self_zero_steps; eauto].
Qed.

Lemma run_inv_rounds ns links st0 k :
  build dec ns links = (Ok tt, st0) ->
  run_inv dec st0 (rounds dec k (after (initialize_tables dec) st0)).
Proof.
  intros Hb. eapply run_inv_steps.
  - apply (run_inv_start _ _ _ Hb).
  - apply rounds_steps.
Qed.

(** *** At a fixed point no path beats the table *)

Lemma settled_le_path st :
  wf dec st -> settled dec st -> self_zero dec st ->
  forall p s z, In s (nodes st) -> path_cost dec st s p = Some z ->
    exists e, entry dec st s (last p s) = Some e /\ cost_le (fst e) (Fin z).
Proof.
  intros Hwf Hset Hz. induction p as [|m p IH]; intros s z Hs; simpl path_cost.
  - intros H. inversion H; subst. exists (Fin 0, Some s).
    split; [apply Hz; assumption | simpl; lia].
  - destruct (link dec st s m) as [w|] eqn:Hl; [|discriminate].
    destruct (path_cost dec st m p) as [z0|] eqn:Hp; [|discriminate].
    intros H. inversion H; subst z. rewrite last_cons.
    destruct (link_edge _ _ _ _ _ _ Hl) as (g & Hg & Hin).
    assert (Hm : In m (nodes st)) by (eapply wf_neighbor; eauto).
    destruct (IH m z0 Hm Hp) as (e0 & He0 & Hle0).
    destruct (Hset s g m w (last p m) Hs Hg Hin e0 He0) as (e & He & Hle).
    exists e. split; [assumption|].
    eapply cost_le_trans; [exact Hle|].
    apply (cadd_mono w) in Hle0. exact Hle0.
Qed.

(** *** The Bellman-Ford bound *)

Lemma bounded_round st k :
  wf dec st -> graph_convertible dec st ->
  bounded dec k st -> bounded dec (S k) (after (update_routing dec) st).
Proof.
  intros Hwf Hconv Hb.
  destruct (update_routing_ok _ dec st Hwf Hconv) as [b Hok].
  pose proof (update_routing_steps _ dec st) as Hsteps.
  assert (Hrun : update_routing dec st = (Ok b, after (update_routing dec) st)).
  { unfold after. destruct (update_routing dec st); simpl in *. congruence. }
  set (st' := after (update_routing dec) st) in *.
  intros s p z Hs Hlen.
  rewrite (steps_nodes _ _ _ _ Hsteps) in Hs.
  rewrite (path_cost_graph _ dec st st') by (apply (steps_graph _ _ _ _ Hsteps)).
  destruct p as [|m p]; simpl path_cost.
  - intros H. destruct (Hb s [] z Hs (Nat.le_0_l _) H) as (e & He & Hle).
    destruct (steps_entry _ _ _ _ _ _ _ Hsteps He) as (e' & He' & Himp).
    exists e'. split; [exact He'|].
    eapply cost_le_trans; [apply improves_le; eassumption | exact Hle].
  - destruct (link dec st s m) as [w|] eqn:Hl; [|discriminate].
    destruct (path_cost dec st m p) as [z0|] eqn:Hp; [|discriminate].
    intros H. inversion H; subst z. rewrite last_cons.
    destruct (link_edge _ _ _ _ _ _ Hl) as (g & Hg & Hin).
    assert (Hm : In m (nodes st)) by (eapply wf_neighbor; eauto).
    simpl in Hlen.
    destruct (Hb m p z0 Hm ltac:(lia) Hp) as (e0 & He0 & Hle0).
    destruct (update_routing_cover _ dec st b st' Hrun s g m w (last p m)
                Hs Hg Hin e0 He0) as (e & He & Hle).
    exists e. split; [assumption|].
    eapply cost_le_trans; [exact Hle|].
    apply (cadd_mono w) in Hle0. exact Hle0.
Qed.

Lemma bounded_rounds st k :
  wf dec st -> graph_convertible dec st -> self_zero dec st ->
  bounded dec k (rounds dec k st).
Proof.
  intros Hwf Hconv Hz. induction k as [|k IH]; simpl.
  - intros s p z Hs Hlen. destruct p; [|simpl in Hlen; lia].
    simpl. intros H. inversion H; subst.
    exists (Fin 0, Some s). split; [apply Hz; assumption | simpl; lia].
  - apply bounded_round; [| |exact IH].
    + eapply wf_steps; [exact Hwf | apply rounds_steps].
    + eapply graph_convertible_steps; [exact Hconv | apply rounds_steps].
Qed.

Lemma bounded_settled st :
  wf dec st -> graph_nonneg dec st -> sound dec st ->
  bounded dec (List.length (nodup dec (nodes st)) - 1) st ->
  settled dec st.
Proof.
  intros Hwf Hnn Hsound Hb n g m c d Hn Hg Hin e0 He0.
  assert (Hm : In m (nodes st)) by (eapply wf_neighbor; eauto).
  assert (Hd : In d (nodes st)) by (eapply wf_entry_dest; eauto).
  destruct (Hsound _ _ _ He0) as [->|(z0 & m' & p & -> & Hp & Hlast)].
  - destruct (wf_entry _ dec st n d Hwf Hn Hd) as [e He].
    exists e. split; [assumption|]. simpl. destruct (fst e); exact I.
  - assert (Hpath : path_cost dec st n (m :: p) = Some (c + z0)).
    { simpl. now rewrite (wf_edge_link _ _ _ _ _ _ _ Hwf Hg Hin), Hp. }
    destruct (path_short _ dec st n (m :: p) _ Hwf Hnn Hn Hpath)
      as (p' & z' & Hp' & Hle & Hlast' & Hlen).
    destruct (Hb n p' z' Hn Hlen Hp') as (e & He & Hle').
    rewrite Hlast', last_cons, Hlast in He.
    exists e. split; [assumption|].
    eapply cost_le_trans; [exact Hle'|]. simpl. exact Hle.
Qed.
End Engine.

(** ** Every reachable state *)

Section Reachable.
Variable node : Type.
Variable dec : forall x y : node, {x = y} + {x <> y}.

Implicit Types (st : Network node) (n m s d : node).

Lemma for_each_preserve (A B : Type) (body : A -> B -> M node B)
      (P : Network node -> Prop) l :
  (forall x a st, In x l -> P st -> P (after (body x a) st)) ->
  forall acc st, P st -> P (after (for_each l body acc) st).
Proof.
  induction l as [|x l IH]; intros Hbody acc st Hst; simpl.
  - exact Hst.
  - unfold after, bind in *.
    specialize (Hbody x acc st (or_introl eq_refl) Hst) as Hx.
    destruct (body x acc st) as [[a'|e] s'] eqn:E; simpl in *; [|exact Hx].
    apply IH; [|exact Hx].
    intros y a s0 Hy. apply Hbody. now right.
Qed.

Lemma add_link_after n1 n2 c st :
  after (add_link dec n1 n2 c) st = st \/
  after (add_link dec n1 n2 c) st = put_link dec n1 n2 c st \/
  after (add_link dec n1 n2 c) st
  = put_link dec n2 n1 c (put_link dec n1 n2 c st).
Proof.
  unfold after. rewrite add_link_eq.
  destruct (dict_get dec n1 (graph st)); [|now left].
  destruct (dict_get dec n2 (graph (put_link dec n1 n2 c st))); simpl; auto.
Qed.

(** An invariant of the constructor, of a link assignment, of a
    self-entry assignment and of a table write holds in every reachable
    state. *)
Lemma reachable_invariant (P : Network node -> Prop) :
  (forall ns, P (__init__ dec ns)) ->
  (forall st n1 n2 c, P st -> P (put_link dec n1 n2 c st)) ->
  (forall st n, P st -> P (put_entry dec n n (Fin 0, Some n) st)) ->
  (forall st st', P st -> relax_step dec st st' -> P st') ->
  forall st, reachable dec st -> P st.
Proof.
  intros Hinit Hlink Hself Hstep st H.
  induction H as [ns|st n1 n2 c _ IH|st _ IH|st _ IH].
  - apply Hinit.
  - destruct (add_link_after n1 n2 c st) as [->|[->| ->]]; auto.
  - unfold initialize_tables.
    change (P (after (for_each (nodes st)
                        (fun n (_ : unit) => set_entry dec n n (Fin 0, Some n)) tt)
                     st)).
    apply for_each_preserve; [|exact IH].
    intros n a s0 _ Hs0. unfold after. rewrite set_entry_eq.
    destruct (table dec s0 n); simpl; auto.
  - pose proof (update_routing_steps _ dec st) as Hs.
    induction Hs; eauto.
Qed.

Lemma put_link_get_None n1 n2 c st n :
  dict_get dec n (graph (put_link dec n1 n2 c st)) <> None <->
  dict_get dec n (graph st) <> None.
Proof.
  destruct (dict_get dec n1 (graph st)) as [g1|] eqn:Hg1.
  - rewrite (put_link_graph _ dec n1 n2 c st g1 n Hg1).
    destruct (dec n1 n) as [<-|Hne]; [|tauto].
    rewrite Hg1. split; discriminate.
  - unfold put_link. rewrite Hg1. tauto.
Qed.

Lemma reachable_graph_keys st : reachable dec st -> graph_keys_ok dec st.
Proof.
  apply (reachable_invariant (graph_keys_ok dec)).
  - intros ns n. simpl. rewrite dict_comp_get.
    destruct (in_dec dec n ns); split; intros; try discriminate; tauto.
  - intros st0 n1 n2 c H n. rewrite put_link_nodes, put_link_get_None. apply H.
  - intros st0 n0 H n. rewrite put_entry_nodes, put_entry_graph. apply H.
  - intros st0 st' H Hs n.
    rewrite (relax_step_nodes _ _ _ _ Hs), (relax_step_graph _ _ _ _ Hs). apply H.
Qed.

Lemma entry_put_link n1 n2 c st s d :
  entry dec (put_link dec n1 n2 c st) s d = entry dec st s d.
Proof. unfold entry. now rewrite put_link_tables. Qed.

Lemma put_link_keys_mono n1 n2 c st n g m :
  dict_get dec n (graph st) = Some g -> In m (dict_keys g) ->
  exists g', dict_get dec n (graph (put_link dec n1 n2 c st)) = Some g' /\
             In m (dict_keys g').
Proof.
  intros Hg Hm.
  destruct (dict_get dec n1 (graph st)) as [g1|] eqn:Hg1.
  - rewrite (put_link_graph _ dec n1 n2 c st g1 n Hg1).
    destruct (dec n1 n) as [<-|Hne]; [|eauto].
    rewrite Hg1 in Hg. inversion Hg; subst g1.
    eexists. split; [reflexivity|]. apply dict_keys_set_In. now right.
  - unfold put_link. rewrite Hg1. eauto.
Qed.

Lemma reachable_hop_is_neighbor st : reachable dec st -> hop_is_neighbor dec st.
Proof.
  apply (reachable_invariant (hop_is_neighbor dec)).
  - intros ns n d c m _ He. apply all_inf_init in He. discriminate.
  - intros st0 n1 n2 c H n d c0 m Hnd. rewrite entry_put_link. intros He.
    destruct (H n d c0 m Hnd He) as (g & Hg & Hm).
    eapply put_link_keys_mono; eauto.
  - intros st0 n0 H n d c m Hnd. rewrite put_entry_graph.
    destruct (table dec st0 n0) as [t|] eqn:Ht.
    + rewrite put_entry_entry by congruence.
      destruct (dec n0 n) as [<-|Hne]; [destruct (dec n0 d) as [<-|Hd]|];
        try apply H; try assumption. congruence.
    + unfold put_entry. unfold table in Ht. rewrite Ht. now apply H.
  - intros st0 st' H Hs.
    destruct Hs as [n0 m0 g c d0 e0 best new Hg Hin He Hb Hadd Hlt].
    intros n d c0 m Hnd. rewrite put_entry_graph.
    rewrite put_entry_entry by (eapply entry_Some_table; eauto).
    destruct (dec n0 n) as [<-|Hne]; [destruct (dec d0 d) as [<-|Hd]|];
      try apply H; try assumption.
    intros H1. inversion H1; subst. exists g. split; [assumption|].
    eapply dict_In_keys; eauto.
Qed.
End Reachable.

(** ** The properties of the engine *)

Section Properties.
Variable node : Type.
Variable dec : forall x y : node, {x = y} + {x <> y}.

Implicit Types (st : Network node) (n m s d : node).

Lemma returns_false_fixed st :
  fst (update_routing dec st) = Ok false ->
  update_routing dec st = (Ok false, st).
Proof.
  intros H. destruct (update_routing dec st) as [r st'] eqn:E. simpl in H.
  subst r. now rewrite (update_routing_false _ dec st st' E).
Qed.

(** C1, as amended.  Take an engine built by the constructor and
    successful [add_link] calls, all link costs non-negative, then
    [initialize_tables], then any number [k] of [update_routing] calls,
    and suppose [update_routing] returns [False] in the state reached.
    Then for every node [S] and every [D] reachable from [S] the table of
    [S] records for [D] a finite cost that is the least cost of a path
    from [S] to [D]; and when [S <> D] the recorded next hop [M] is a
    neighbour of [S] with
    [graph[S][M] + routing_tables[M][D].cost = routing_tables[S][D].cost]. *)
Theorem shortest_path_at_convergence ns links st0 k S D :
  build dec ns links = (Ok tt, st0) ->
  graph_nonnegb st0 = true ->
  fst (update_routing dec (run dec k st0)) = Ok false ->
  In S ns ->
  connected dec (run dec k st0) S D ->
  exists z M,
    entry dec (run dec k st0) S D = Some (Fin z, Some M) /\
    is_dist dec (run dec k st0) S D z /\
    (S <> D ->
     exists w z' h,
       link dec (run dec k st0) S M = Some w /\
       entry dec (run dec k st0) M D = Some (Fin z', h) /\
       w + z' = z).
Proof.
  intros Hb Hnnb Hfalse HS (p & z0 & Hp & Hlast).
  destruct (build_spec _ _ _ _ _ Hb) as (_ & Hns & _).
  pose proof (graph_nonnegb_sound _ dec _ Hnnb) as Hnn.
  destruct (run_inv_rounds _ dec ns links st0 k Hb)
    as [Hwf Hn Hg Hs Hh Hnz].
  destruct (Hnz Hnn) as [_ Hzero].
  fold (run dec k st0) in *. set (st := run dec k st0) in *.
  pose proof (converged_settled _ dec st (returns_false_fixed st Hfalse)) as Hset.
  assert (HSn : In S (nodes st)) by (rewrite Hn, Hns; exact HS).
  pose proof (settled_le_path _ dec st Hwf Hset Hzero) as Hle.
  destruct (Hle p S z0 HSn Hp) as (e & He & Hez). rewrite Hlast in He.
  destruct (Hs _ _ _ He) as [->|(z & M & p1 & -> & Hp1 & Hlast1)];
    [simpl in Hez; contradiction|].
  exists z, M. split; [exact He|]. split.
  - split; [exists p1; auto|].
    intros p2 z2 Hp2 Hlast2.
    destruct (Hle p2 S z2 HSn Hp2) as (e2 & He2 & Hle2).
    rewrite Hlast2, He in He2. inversion He2; subst e2. exact Hle2.
  - intros Hne.
    destruct (Hh S D z M Hne He) as (w & e1 & Hl & He1 & Hle1).
    destruct e1 as [[z'|] h]; simpl in Hle1; [|contradiction].
    exists w, z', h. split; [exact Hl|]. split; [exact He1|].
    destruct (link_edge _ _ _ _ _ _ Hl) as (g & Hgr & Hin).
    destruct (Hset S g M w D HSn Hgr Hin _ He1) as (e' & He' & Hle').
    rewrite He in He'. inversion He'; subst e'. simpl in Hle'. lia.
Qed.

(** C2, as amended.  For an engine built by the constructor and
    successful [add_link] calls whose link costs are non-negative and
    convert to a [float], with [N] distinct nodes: after
    [initialize_tables], at most [N - 1] calls of [update_routing] lead
    to a state in which [update_routing] returns [False] (and changes
    nothing). *)
Theorem convergence_within_bound ns links st0 :
  build dec ns links = (Ok tt, st0) ->
  graph_nonnegb st0 = true ->
  graph_convertibleb st0 = true ->
  exists k, (k <= List.length (nodup dec ns) - 1)%nat /\
            update_routing dec (run dec k st0) = (Ok false, run dec k st0).
Proof.
  intros Hb Hnnb Hcb.
  destruct (build_spec _ _ _ _ _ Hb) as (_ & Hns & _).
  pose proof (graph_nonnegb_sound _ dec _ Hnnb) as Hnn.
  pose proof (graph_convertibleb_sound _ dec _ Hcb) as Hconv.
  set (k := (List.length (nodup dec ns) - 1)%nat).
  exists k. split; [apply le_n|].
  destruct (run_inv_rounds _ dec ns links st0 0 Hb)
    as [Hwf1 Hn1 Hg1 _ _ Hnz1].
  destruct (Hnz1 Hnn) as [_ Hzero1].
  destruct (run_inv_rounds _ dec ns links st0 k Hb)
    as [Hwf Hn Hg Hs _ _].
  fold (run dec k st0) in *. fold (run dec 0 st0) in *.
  assert (Hconv1 : graph_convertible dec (run dec 0 st0))
    by (unfold graph_convertible; now rewrite Hg1).
  assert (Hgn : graph_nonneg dec (run dec k st0))
    by (unfold graph_nonneg; now rewrite Hg).
  assert (Hgc : graph_convertible dec (run dec k st0))
    by (unfold graph_convertible; now rewrite Hg).
  apply update_routing_fix; auto.
  apply bounded_settled; auto.
  rewrite Hn, Hns. fold k.
  apply (bounded_rounds _ dec (run dec 0 st0) k Hwf1 Hconv1 Hzero1).
Qed.

(** C4.  For an engine with non-negative link costs, after
    [initialize_tables] the table of every node [X] holds [(0, X)] for
    [X] itself, and still does after any number of [update_routing]
    calls. *)
Theorem self_cost_invariant ns links st0 k X :
  build dec ns links = (Ok tt, st0) ->
  graph_nonnegb st0 = true ->
  In X ns ->
  entry dec (run dec k st0) X X = Some (Fin 0, Some X).
Proof.
  intros Hb Hnnb HX.
  destruct (build_spec _ _ _ _ _ Hb) as (_ & Hns & _).
  destruct (run_inv_rounds _ dec ns links st0 k Hb) as [_ Hn _ _ _ Hnz].
  destruct (Hnz (graph_nonnegb_sound _ dec _ Hnnb)) as [_ Hzero].
  apply Hzero. rewrite Hn, Hns. exact HX.
Qed.

(** C5.  Whatever the state, a call of [update_routing] leaves every
    recorded entry in place or replaces it by one with a strictly smaller
    cost; recorded costs never increase. *)
Theorem update_routing_monotone st s d e :
  entry dec st s d = Some e ->
  exists e',
    entry dec (after (update_routing dec) st) s d = Some e' /\
    cost_le (fst e') (fst e) /\
    (e' = e \/ cost_lt (fst e') (fst e)).
Proof.
  intros He.
  destruct (steps_entry _ dec _ _ s d e (update_routing_steps _ dec st) He)
    as (e' & He' & Himp).
  exists e'. split; [exact He'|]. split; [now apply improves_le | exact Himp].
Qed.

(** C6.  If [update_routing] returns [False], it has changed nothing, and
    calling it again returns [False] again and changes nothing. *)
Theorem fixed_point_idempotent st :
  fst (update_routing dec st) = Ok false ->
  after (update_routing dec) st = st /\
  fst (update_routing dec (after (update_routing dec) st)) = Ok false /\
  after (update_routing dec) (after (update_routing dec) st)
  = after (update_routing dec) st.
Proof.
  intros H. apply returns_false_fixed in H.
  unfold after. rewrite H. simpl. rewrite H. auto.
Qed.

(** C7, as amended.  In any reachable state, [add_link(node1, node2, c)]
    with [node1] or [node2] outside the node set raises [KeyError] and
    leaves the node list and the routing tables as they were.  When
    [node1] is unknown the whole state is unchanged; when [node1] is
    known and [node2] is not, [graph[node1][node2] = c] has been assigned
    before the error is raised. *)
Theorem add_link_unknown_node st node1 node2 c :
  reachable dec st ->
  ~ In node1 (nodes st) \/ ~ In node2 (nodes st) ->
  fst (add_link dec node1 node2 c st) = Raise KeyError /\
  nodes (after (add_link dec node1 node2 c) st) = nodes st /\
  routing_tables (after (add_link dec node1 node2 c) st) = routing_tables st /\
  (~ In node1 (nodes st) -> after (add_link dec node1 node2 c) st = st) /\
  (In node1 (nodes st) ->
   after (add_link dec node1 node2 c) st = put_link dec node1 node2 c st /\
   link dec (after (add_link dec node1 node2 c) st) node1 node2 = Some c).
Proof.
  intros Hr Hunk. pose proof (reachable_graph_keys _ dec st Hr) as Hk.
  split; [|split; [apply add_link_nodes | split; [apply add_link_tables|]]].
  - rewrite add_link_eq.
    destruct (dict_get dec node1 (graph st)) as [g1|] eqn:Hg1; [|reflexivity].
    assert (H1 : In node1 (nodes st)) by (apply Hk; congruence).
    destruct Hunk as [Hunk|Hunk]; [contradiction|].
    destruct (dict_get dec node2 (graph (put_link dec node1 node2 c st)))
      eqn:Hg2; [|reflexivity].
    exfalso. apply Hunk. apply Hk.
    apply (put_link_get_None _ dec node1 node2 c st node2). congruence.
  - unfold after. rewrite add_link_eq. split.
    + intros H1.
      destruct (dict_get dec node1 (graph st)) as [g1|] eqn:Hg1; [|reflexivity].
      exfalso. apply H1. apply Hk. congruence.
    + intros H1. destruct Hunk as [Hunk|Hunk]; [contradiction|].
      destruct (dict_get dec node1 (graph st)) as [g1|] eqn:Hg1.
      2:{ exfalso. apply (proj1 (Hk node1) H1). exact Hg1. }
      destruct (dict_get dec node2 (graph (put_link dec node1 node2 c st)))
        eqn:Hg2.
      { exfalso. apply Hunk. apply Hk.
        apply (put_link_get_None _ dec node1 node2 c st node2). congruence. }
      simpl. split; [reflexivity|].
      unfold link. rewrite (put_link_graph _ dec _ _ _ _ _ node1 Hg1).
      destruct (dec node1 node1); [|congruence].
      apply dict_get_set_eq.
Qed.

(** C8.  For nodes [S] and [D] of an engine with no path of the graph
    from [S] to [D], after [initialize_tables] and any number of
    [update_routing] calls, in particular at the fixed point, the table
    of [S] still records [(float('inf'), None)] for [D]. *)
Theorem unreachable_stay_infinite ns links st0 k S D :
  build dec ns links = (Ok tt, st0) ->
  In S ns -> In D ns ->
  ~ connected dec st0 S D ->
  entry dec (run dec k st0) S D = Some (Inf, None).
Proof.
  intros Hb HS HD Hnc.
  destruct (build_spec _ _ _ _ _ Hb) as (_ & Hns & _).
  destruct (run_inv_rounds _ dec ns links st0 k Hb) as [Hwf Hn Hg Hs _ _].
  fold (run dec k st0) in *.
  destruct (wf_entry _ dec (run dec k st0) S D Hwf) as [e He];
    [rewrite Hn, Hns; assumption | rewrite Hn, Hns; assumption |].
  destruct (Hs _ _ _ He) as [->|(z & M & p & -> & Hp & Hlast)];
    [exact He|].
  exfalso. apply Hnc. exists p, z. split; [|exact Hlast].
  rewrite <- (path_cost_graph _ dec st0 (run dec k st0)); assumption.
Qed.

(** C9.  In every state reachable through the constructor, [add_link],
    [initialize_tables] and [update_routing] (calls that raise included),
    a next hop recorded by node [N] for another destination [D] is a key
    of [graph[N]]. *)
Theorem next_hop_is_neighbor st N D c M :
  reachable dec st ->
  N <> D ->
  entry dec st N D = Some (c, Some M) ->
  exists g, dict_get dec N (graph st) = Some g /\ In M (dict_keys g).
Proof.
  intros Hr Hne He. exact (reachable_hop_is_neighbor _ dec st Hr N D c M Hne He).
Qed.

End Properties.

(** ** More about dictionaries *)

Section DictMore.
Variables K V : Type.
Variable dec : forall x y : K, {x = y} + {x <> y}.

Implicit Types (d : dict K V) (k : K) (v : V).

Lemma dict_set_set k v1 v2 d :
  dict_set dec k v2 (dict_set dec k v1 d) = dict_set dec k v2 d.
Proof.
  induction d as [|[k' v'] d IH]; simpl.
  - destruct (dec k k); congruence.
  - destruct (dec k k') as [->|Hne]; simpl.
    + destruct (dec k' k'); congruence.
    + destruct (dec k k'); [congruence|]. now rewrite IH.
Qed.

Lemma dict_set_same k v d : dict_get dec k d = Some v -> dict_set dec k v d = d.
Proof.
  induction d as [|[k' v'] d IH]; simpl; [discriminate|].
  destruct (dec k k') as [->|Hne].
  - intros H. inversion H. reflexivity.
  - intros H. now rewrite IH.
Qed.

Lemma dict_set_comm k1 k2 v1 v2 d :
  k1 <> k2 -> In k1 (dict_keys d) -> In k2 (dict_keys d) ->
  dict_set dec k1 v1 (dict_set dec k2 v2 d)
  = dict_set dec k2 v2 (dict_set dec k1 v1 d).
Proof.
  intros Hne. induction d as [|[k' v'] d IH]; simpl; [tauto|].
  intros H1 H2.
  destruct (dec k2 k') as [->|H2']; destruct (dec k1 k') as [->|H1']; simpl;
    try congruence.
  - destruct (dec k1 k'); [congruence|]. destruct (dec k' k'); congruence.
  - destruct (dec k2 k'); [congruence|]. destruct (dec k' k'); congruence.
  - destruct (dec k1 k'); [congruence|]. destruct (dec k2 k'); [congruence|].
    f_equal. apply IH; [destruct H1 | destruct H2]; congruence.
Qed.

Lemma dict_keys_set_absent k v d :
  ~ In k (dict_keys d) -> dict_keys (dict_set dec k v d) = dict_keys d ++ [k].
Proof.
  induction d as [|[k' v'] d IH]; simpl; [reflexivity|].
  intros H. destruct (dec k k') as [->|Hne]; [tauto|].
  simpl. f_equal. apply IH. tauto.
Qed.

Lemma dict_comp_fold_order (f : K -> V) l d :
  NoDup (dict_keys d ++ l) ->
  dict_keys (fold_left (fun d k => dict_set dec k (f k) d) l d)
  = dict_keys d ++ l.
Proof.
  revert d. induction l as [|a l IH]; intros d Hnd; simpl.
  - now rewrite app_nil_r.
  - assert (Ha : ~ In a (dict_keys d)).
    { apply NoDup_remove_2 in Hnd. intros H. apply Hnd. apply in_or_app. now left. }
    rewrite IH; rewrite dict_keys_set_absent by assumption.
    + now rewrite <- app_assoc.
    + now rewrite <- app_assoc.
Qed.

Lemma dict_comp_order (f : K -> V) l :
  NoDup l -> dict_keys (dict_comp dec f l) = l.
Proof.
  intros H. unfold dict_comp. now rewrite dict_comp_fold_order.
Qed.
End DictMore.

(** ** The constructor and [add_link], continued *)

Section Links.
Variable node : Type.
Variable dec : forall x y : node, {x = y} + {x <> y}.

Implicit Types (st : Network node) (n m s d a b : node).

Lemma network_eta st : mkNetwork (nodes st) (graph st) (routing_tables st) = st.
Proof. destruct st; reflexivity. Qed.

Lemma put_link_put_link n1 n2 c1 c2 st :
  put_link dec n1 n2 c2 (put_link dec n1 n2 c1 st) = put_link dec n1 n2 c2 st.
Proof.
  unfold put_link.
  destruct (dict_get dec n1 (graph st)) as [g|] eqn:Hg; simpl.
  - rewrite dict_get_set_eq. simpl. now rewrite !dict_set_set.
  - now rewrite Hg.
Qed.

Lemma put_link_comm n1 n2 c n1' n2' c' st :
  n1 <> n1' ->
  put_link dec n1 n2 c (put_link dec n1' n2' c' st)
  = put_link dec n1' n2' c' (put_link dec n1 n2 c st).
Proof.
  intros Hne. unfold put_link.
  destruct (dict_get dec n1 (graph st)) as [g|] eqn:Hg;
    destruct (dict_get dec n1' (graph st)) as [g'|] eqn:Hg'; simpl;
    rewrite ?Hg, ?Hg'; simpl;
    rewrite ?dict_get_set_neq by congruence; rewrite ?Hg, ?Hg'; simpl;
    try reflexivity.
  f_equal. apply dict_set_comm; [assumption| |]; eapply dict_get_In_keys; eauto.
Qed.

Lemma link_put_link n1 n2 c st a b :
  dict_get dec n1 (graph st) <> None ->
  link dec (put_link dec n1 n2 c st) a b
  = if dec n1 a then (if dec n2 b then Some c else link dec st a b)
    else link dec st a b.
Proof.
  intros H. destruct (dict_get dec n1 (graph st)) as [g|] eqn:Hg; [|congruence].
  unfold link. rewrite (put_link_graph _ dec n1 n2 c st g a Hg).
  destruct (dec n1 a) as [<-|Hne]; [|reflexivity].
  rewrite Hg. apply dict_get_set.
Qed.

(** X1.  In a reachable state, [add_link(node1, node2, c)] with both
    nodes known returns normally; afterwards [graph[node1][node2]] and
    [graph[node2][node1]] are both [c], every other link is as before, and
    the node list and the routing tables are untouched. *)
Theorem add_link_known_nodes st node1 node2 c :
  reachable dec st ->
  In node1 (nodes st) -> In node2 (nodes st) ->
  fst (add_link dec node1 node2 c st) = Ok tt /\
  link dec (after (add_link dec node1 node2 c) st) node1 node2 = Some c /\
  link dec (after (add_link dec node1 node2 c) st) node2 node1 = Some c /\
  (forall a b, (a, b) <> (node1, node2) -> (a, b) <> (node2, node1) ->
     link dec (after (add_link dec node1 node2 c) st) a b = link dec st a b) /\
  nodes (after (add_link dec node1 node2 c) st) = nodes st /\
  routing_tables (after (add_link dec node1 node2 c) st) = routing_tables st.
Proof.
  intros Hr H1 H2. pose proof (reachable_graph_keys _ dec st Hr) as Hk.
  assert (Hg1 : dict_get dec node1 (graph st) <> None) by (now apply Hk).
  assert (Hg2 : dict_get dec node2 (graph (put_link dec node1 node2 c st)) <> None).
  { apply put_link_get_None. now apply Hk. }
  assert (Heq : add_link dec node1 node2 c st
                = (Ok tt, put_link dec node2 node1 c (put_link dec node1 node2 c st))).
  { rewrite add_link_eq.
    destruct (dict_get dec node1 (graph st)); [|congruence].
    destruct (dict_get dec node2 (graph (put_link dec node1 node2 c st)));
      [reflexivity | congruence]. }
  unfold after. rewrite Heq. simpl.
  split; [reflexivity|].
  assert (Hl : forall a b,
             link dec (put_link dec node2 node1 c (put_link dec node1 node2 c st)) a b
             = if dec node2 a
               then (if dec node1 b then Some c
                     else if dec node1 a
                          then (if dec node2 b then Some c else link dec st a b)
                          else link dec st a b)
               else if dec node1 a
                    then (if dec node2 b then Some c else link dec st a b)
                    else link dec st a b).
  { intros a b. rewrite link_put_link by assumption.
    rewrite link_put_link by assumption. reflexivity. }
  split; [|split; [|split; [|split]]].
  - rewrite Hl. destruct (dec node1 node1); [|congruence].
    destruct (dec node2 node2); [|congruence].
    destruct (dec node2 node1); [destruct (dec node1 node2)|]; congruence.
  - rewrite Hl. destruct (dec node2 node2); [|congruence].
    destruct (dec node1 node1); congruence.
  - intros a b Hab Hba. rewrite Hl.
    destruct (dec node2 a); destruct (dec node1 b);
      destruct (dec node1 a); destruct (dec node2 b);
      try reflexivity; exfalso; subst; congruence.
  - now rewrite !put_link_nodes.
  - now rewrite !put_link_tables.
Qed.

(** X2.  Last write wins: in any state, a call [add_link(node1, node2, c1)]
    followed by [add_link(node1, node2, c2)] leaves the engine exactly as the
    second call alone would, so a link added twice is not duplicated. *)
Theorem add_link_overwrite st node1 node2 c1 c2 :
  after (add_link dec node1 node2 c2) (after (add_link dec node1 node2 c1) st)
  = after (add_link dec node1 node2 c2) st.
Proof.
  unfold after. rewrite (add_link_eq _ dec node1 node2 c1 st).
  destruct (dict_get dec node1 (graph st)) as [g1|] eqn:Hg1; simpl.
  2:{ rewrite add_link_eq, Hg1. reflexivity. }
  assert (Hk1 : forall c st0,
             dict_get dec node1 (graph st0) <> None ->
             dict_get dec node1 (graph (put_link dec node1 node2 c st0)) <> None).
  { intros c st0 H. now apply put_link_get_None. }
  assert (H1 : dict_get dec node1 (graph st) <> None) by congruence.
  destruct (dict_get dec node2 (graph (put_link dec node1 node2 c1 st)))
    as [g2|] eqn:Hg2; simpl.
  - assert (H2 : dict_get dec node2 (graph st) <> None).
    { apply (put_link_get_None _ dec node1 node2 c1 st node2). congruence. }
    assert (Hok : forall c st0,
               dict_get dec node1 (graph st0) <> None ->
               dict_get dec node2 (graph st0) <> None ->
               add_link dec node1 node2 c st0
               = (Ok tt, put_link dec node2 node1 c (put_link dec node1 node2 c st0))).
    { intros c st0 Ha Hb. rewrite add_link_eq.
      destruct (dict_get dec node1 (graph st0)); [|congruence].
      destruct (dict_get dec node2 (graph (put_link dec node1 node2 c st0))) eqn:E;
        [reflexivity|].
      exfalso. apply (put_link_get_None _ dec node1 node2 c st0 node2) in Hb.
      congruence. }
    rewrite (Hok c2 st H1 H2).
    rewrite Hok by (repeat apply put_link_get_None; assumption).
    simpl. destruct (dec node1 node2) as [<-|Hne].
    + now rewrite !put_link_put_link.
    + rewrite (put_link_comm node1 node2 c2 node2 node1 c1) by assumption.
      now rewrite !put_link_put_link.
  - assert (H2 : dict_get dec node2 (graph st) = None).
    { destruct (dict_get dec node2 (graph st)) eqn:E; [|reflexivity].
      exfalso.
      assert (Hx : dict_get dec node2 (graph st) <> None) by congruence.
      apply (put_link_get_None _ dec node1 node2 c1 st node2) in Hx. congruence. }
    assert (Hko : forall c st0,
               dict_get dec node1 (graph st0) <> None ->
               dict_get dec node2 (graph st0) = None ->
               add_link dec node1 node2 c st0
               = (Raise KeyError, put_link dec node1 node2 c st0)).
    { intros c st0 Ha Hb. rewrite add_link_eq.
      destruct (dict_get dec node1 (graph st0)); [|congruence].
      destruct (dict_get dec node2 (graph (put_link dec node1 node2 c st0))) eqn:E;
        [|reflexivity].
      exfalso.
      assert (Hx : dict_get dec node2 (graph (put_link dec node1 node2 c st0)) <> None)
        by congruence.
      apply put_link_get_None in Hx. congruence. }
    rewrite (Hko c2 st H1 H2).
    rewrite Hko; [simpl; now rewrite put_link_put_link | now apply Hk1 | exact Hg2].
Qed.

(** *** Symmetry of the topology *)

Lemma graph_symmetric_add_link st n1 n2 c st' :
  graph_symmetric dec st ->
  add_link dec n1 n2 c st = (Ok tt, st') -> graph_symmetric dec st'.
Proof.
  intros Hsym. rewrite add_link_eq.
  destruct (dict_get dec n1 (graph st)) as [g1|] eqn:Hg1; [|discriminate].
  destruct (dict_get dec n2 (graph (put_link dec n1 n2 c st))) as [g2|] eqn:Hg2;
    [|discriminate].
  intros H. inversion H; subst st'. intros a b.
  rewrite !link_put_link by congruence.
  rewrite (Hsym a b).
  destruct (dec n2 a); destruct (dec n1 b);
    destruct (dec n1 a); destruct (dec n2 b);
    destruct (dec n2 b); destruct (dec n1 a);
    try reflexivity; try congruence; subst; try congruence.
Qed.

Lemma graph_symmetric_init ns : graph_symmetric dec (__init__ dec ns).
Proof.
  assert (H : forall a b, link dec (__init__ dec ns) a b = None).
  { intros a b. unfold link. simpl. rewrite dict_comp_get.
    destruct (in_dec dec a ns); reflexivity. }
  intros a b. now rewrite !H.
Qed.

Lemma add_links_symmetric links :
  forall st st', graph_symmetric dec st ->
    add_links dec links st = (Ok tt, st') -> graph_symmetric dec st'.
Proof.
  unfold add_links.
  induction links as [|[[n1 n2] c] links IH]; intros st st' Hsym; simpl.
  - unfold ret. intros H. inversion H; subst. exact Hsym.
  - unfold bind.
    destruct (add_link dec n1 n2 c st) as [[[]|x] s1] eqn:E; [|discriminate].
    apply IH. eapply graph_symmetric_add_link; eauto.
Qed.

Lemma build_symmetric ns links st :
  build dec ns links = (Ok tt, st) -> graph_symmetric dec st.
Proof.
  intros Hb. apply (add_links_symmetric links (__init__ dec ns) st);
    [apply graph_symmetric_init | exact Hb].
Qed.

(** X3.  The topology of an engine built by the constructor and
    successful [add_link] calls is symmetric: [graph[a][b]] and
    [graph[b][a]] are both absent or both the same cost. *)
Theorem build_graph_symmetric ns links st a b :
  build dec ns links = (Ok tt, st) ->
  link dec st a b = link dec st b a.
Proof.
  intros Hb. exact (build_symmetric ns links st Hb a b).
Qed.

(** X4.  The constructor on a list of distinct nodes: the graph and every
    routing table are keyed by the nodes in the order of the list, there
    is no link, and every entry between two nodes is
    [(float('inf'), None)]; nothing is recorded for other identifiers. *)
Theorem constructor_state ns :
  NoDup ns ->
  nodes (__init__ dec ns) = ns /\
  dict_keys (graph (__init__ dec ns)) = ns /\
  dict_keys (routing_tables (__init__ dec ns)) = ns /\
  (forall n, In n ns -> table_keys dec (__init__ dec ns) n = Some ns) /\
  (forall a b, link dec (__init__ dec ns) a b = None) /\
  (forall s d,
      entry dec (__init__ dec ns) s d
      = if in_dec dec s ns
        then (if in_dec dec d ns then Some (Inf, None) else None)
        else None).
Proof.
  intros Hnd. split; [reflexivity|].
  split; [apply dict_comp_order; assumption|].
  split; [apply dict_comp_order; assumption|].
  split; [|split].
  - intros n Hn. unfold table_keys, table. simpl. rewrite dict_comp_get.
    destruct (in_dec dec n ns); [|contradiction].
    simpl. f_equal. apply dict_comp_order; assumption.
  - intros a b. unfold link. simpl. rewrite dict_comp_get.
    destruct (in_dec dec a ns); reflexivity.
  - intros s d. unfold entry. simpl. rewrite dict_comp_get.
    destruct (in_dec dec s ns); [|reflexivity].
    apply dict_comp_get.
Qed.
End Links.

(** ** [initialize_tables] and [update_routing], continued *)

Section Calls.
Variable node : Type.
Variable dec : forall x y : node, {x = y} + {x <> y}.

Implicit Types (st : Network node) (n m s d : node) (e : entry_t node).

Lemma table_None_keys st n : table dec st n = None <-> table_keys dec st n = None.
Proof.
  unfold table_keys. destruct (table dec st n); simpl; split; congruence.
Qed.

Lemma steps_table_None st st' n :
  steps dec st st' -> (table dec st' n = None <-> table dec st n = None).
Proof.
  intros H. rewrite !table_None_keys. now rewrite (steps_table_keys _ dec _ _ n H).
Qed.

Lemma reachable_tables_ok st : reachable dec st -> tables_ok dec st.
Proof.
  apply (reachable_invariant _ dec (tables_ok dec)).
  - intros ns n. unfold table. simpl. rewrite dict_comp_get.
    destruct (in_dec dec n ns); split; intros; try discriminate; tauto.
  - intros st0 n1 n2 c H n. unfold table.
    rewrite put_link_nodes, put_link_tables. apply H.
  - intros st0 n0 H n. rewrite put_entry_nodes.
    destruct (table dec st0 n0) as [t|] eqn:Ht.
    + rewrite (put_entry_table _ dec n0 n0 _ st0 t n Ht).
      destruct (dec n0 n) as [<-|Hne]; [|apply H].
      split; [discriminate|]. intros _. apply H. congruence.
    + unfold put_entry. unfold table in Ht. rewrite Ht. apply H.
  - intros st0 st' H Hs n. rewrite (relax_step_nodes _ _ _ _ Hs).
    assert (Hn : table dec st' n = None <-> table dec st0 n = None)
      by (apply steps_table_None, steps_one; exact Hs).
    specialize (H n). tauto.
Qed.

(** X5.  In every reachable state [initialize_tables] returns normally.
    It sets the entry of every node for itself to [(0, node)] and changes
    nothing else: the other entries, also those found by earlier rounds,
    the graph and the node list are as before. *)
Theorem initialize_tables_reachable st :
  reachable dec st ->
  fst (initialize_tables dec st) = Ok tt /\
  nodes (after (initialize_tables dec) st) = nodes st /\
  graph (after (initialize_tables dec) st) = graph st /\
  (forall s d,
      entry dec (after (initialize_tables dec) st) s d
      = if dec s d
        then (if in_dec dec s (nodes st) then Some (Fin 0, Some s)
              else entry dec st s d)
        else entry dec st s d).
Proof.
  intros Hr. pose proof (reachable_tables_ok st Hr) as Hok.
  destruct (initialize_loop _ dec (nodes st) st) as (st' & Hrun & Hn & Hg & He & _).
  { intros n Hn. now apply Hok. }
  unfold after, initialize_tables. rewrite Hrun. simpl. auto.
Qed.

Lemma put_entry_same n d e st :
  entry dec st n d = Some e -> put_entry dec n d e st = st.
Proof.
  unfold entry, put_entry.
  destruct (dict_get dec n (routing_tables st)) as [t|] eqn:Ht; [|discriminate].
  intros H. rewrite (dict_set_same _ _ dec d e t H).
  rewrite (dict_set_same _ _ dec n t _ Ht). apply network_eta.
Qed.

Lemma initialize_loop_fixed l st :
  (forall n, In n l -> entry dec st n n = Some (Fin 0, Some n)) ->
  for_each l (fun n (_ : unit) => set_entry dec n n (Fin 0, Some n)) tt st
  = (Ok tt, st).
Proof.
  induction l as [|x l IH]; intros H; simpl; [reflexivity|].
  unfold bind. rewrite set_entry_eq.
  pose proof (H x (or_introl eq_refl)) as Hx.
  destruct (table dec st x) eqn:Ht;
    [|apply entry_Some_table in Hx; contradiction].
  rewrite (put_entry_same _ _ _ _ Hx). apply IH.
  intros n Hn. apply H. now right.
Qed.

(** X6.  [initialize_tables] is idempotent: in a reachable state a second
    call right after the first returns normally and changes nothing. *)
Theorem initialize_tables_idempotent st :
  reachable dec st ->
  initialize_tables dec (after (initialize_tables dec) st)
  = (Ok tt, after (initialize_tables dec) st).
Proof.
  intros Hr. pose proof (reachable_tables_ok st Hr) as Hok.
  destruct (initialize_loop _ dec (nodes st) st) as (st' & Hrun & Hn & _ & He & _).
  { intros n Hn. now apply Hok. }
  assert (Hst' : after (initialize_tables dec) st = st').
  { unfold after, initialize_tables. now rewrite Hrun. }
  rewrite Hst'. unfold initialize_tables. rewrite Hn.
  apply initialize_loop_fixed. intros n Hin. rewrite He.
  destruct (dec n n); [|congruence].
  destruct (in_dec dec n (nodes st)); [reflexivity | contradiction].
Qed.

Lemma steps_tables_keys st st' :
  steps dec st st' ->
  dict_keys (routing_tables st') = dict_keys (routing_tables st).
Proof.
  induction 1 as [|s0 s1 s2 H1 _ IH]; [reflexivity|].
  rewrite IH. destruct H1 as [n m g c d e best new Hg Hin He Hb Hadd Hlt].
  unfold put_entry. unfold entry in Hb.
  destruct (dict_get dec n (routing_tables s0)) as [t|] eqn:Ht; [|discriminate].
  simpl. apply dict_keys_set_present. eapply dict_get_In_keys; eauto.
Qed.

(** X7.  Whatever the state and whether it returns or raises,
    [update_routing] never changes the node list or the graph, and never
    adds or removes a table or a destination: the keys of every routing
    table are the same, in the same order. *)
Theorem update_routing_frame st :
  nodes (after (update_routing dec) st) = nodes st /\
  graph (after (update_routing dec) st) = graph st /\
  dict_keys (routing_tables (after (update_routing dec) st))
  = dict_keys (routing_tables st) /\
  (forall n, table_keys dec (after (update_routing dec) st) n
             = table_keys dec st n).
Proof.
  pose proof (update_routing_steps _ dec st) as H.
  split; [exact (steps_nodes _ dec _ _ H)|].
  split; [exact (steps_graph _ dec _ _ H)|].
  split; [exact (steps_tables_keys _ _ H)|].
  intros n. exact (steps_table_keys _ dec _ _ n H).
Qed.

(** *** The returned flag *)

Lemma steps_entry_back st st' s d e' :
  steps dec st st' -> entry dec st' s d = Some e' ->
  exists e, entry dec st s d = Some e /\ improves e' e.
Proof.
  intros H. revert e'. induction H as [|s0 s1 s2 H1 _ IH]; intros e' He'.
  - exists e'. split; [assumption | left; reflexivity].
  - destruct (IH _ He') as (e1 & He1 & Hi1).
    destruct (relax_step_entry_back _ dec _ _ _ _ _ H1 He1) as (e0 & He0).
    destruct (relax_step_entry _ dec _ _ _ _ _ H1 He0) as (e1' & He1' & Hi0).
    rewrite He1 in He1'. inversion He1'; subst e1'.
    exists e0. split; [assumption|]. eapply improves_trans; eauto.
Qed.

Lemma improves_lt_trans e1 e2 e3 :
  improves e1 e2 -> cost_lt (fst e2) (fst e3) -> cost_lt (fst e1) (fst e3).
Proof.
  intros [->|H] H'; [assumption | eapply cost_lt_trans; eauto].
Qed.

Lemma lt_improves_trans e1 e2 e3 :
  cost_lt (fst e1) (fst e2) -> improves e2 e3 -> cost_lt (fst e1) (fst e3).
Proof.
  intros H [->|H']; [assumption | eapply cost_lt_trans; eauto].
Qed.

Lemma progress_steps_r st st1 st2 :
  progress dec st st1 -> steps dec st1 st2 -> progress dec st st2.
Proof.
  intros (s & d & e & e1 & He & He1 & Hlt) Hs.
  destruct (steps_entry _ dec _ _ _ _ _ Hs He1) as (e2 & He2 & Hi).
  exists s, d, e, e2. repeat split; try assumption.
  eapply improves_lt_trans; eauto.
Qed.

Lemma progress_steps_l st st1 st2 :
  steps dec st st1 -> progress dec st1 st2 -> progress dec st st2.
Proof.
  intros Hs (s & d & e1 & e2 & He1 & He2 & Hlt).
  destruct (steps_entry_back _ _ _ _ _ Hs He1) as (e & He & Hi).
  exists s, d, e, e2. repeat split; try assumption.
  eapply lt_improves_trans; eauto.
Qed.

Lemma cost_lt_irrefl c : ~ cost_lt c c.
Proof.
  unfold cost_lt. destruct c; simpl; [|discriminate].
  rewrite Z.ltb_lt. lia.
Qed.

Lemma progress_neq st st' : progress dec st st' -> st' <> st.
Proof.
  intros (s & d & e & e' & He & He' & Hlt) ->.
  rewrite He in He'. inversion He'; subst. exact (cost_lt_irrefl _ Hlt).
Qed.

Lemma for_each_true (A : Type) (body : A -> bool -> M node bool) st0 l :
  (forall x a st, In x l -> steps dec st0 st ->
     steps dec st (after (body x a) st)) ->
  (forall x a st st', In x l -> steps dec st0 st ->
     body x a st = (Ok true, st') -> a = true \/ progress dec st st') ->
  forall acc st st', steps dec st0 st ->
    for_each l body acc st = (Ok true, st') ->
    acc = true \/ progress dec st st'.
Proof.
  induction l as [|x l IH]; intros Hsteps Hbody acc st st' Hst; simpl.
  - unfold ret. intros H. inversion H. now left.
  - unfold bind. destruct (body x acc st) as [[a'|e] s1] eqn:E; [|discriminate].
    intros Hrest.
    assert (Hs1 : steps dec st s1).
    { replace s1 with (after (body x acc) st) by (unfold after; now rewrite E).
      apply Hsteps; [now left | assumption]. }
    assert (Hs2 : steps dec s1 st').
    { replace st' with (after (for_each l body a') s1)
        by (unfold after; now rewrite Hrest).
      apply for_each_steps with (st0 := st0).
      - intros y a s0 Hy. apply Hsteps. now right.
      - eapply steps_trans; eauto. }
    destruct (IH (fun y a u Hy => Hsteps y a u (or_intror Hy))
                (fun y a u u' Hy => Hbody y a u u' (or_intror Hy))
                a' s1 st' (steps_trans _ _ _ _ _ Hst Hs1) Hrest) as [->|Hp].
    + destruct (Hbody x acc st s1 (or_introl eq_refl) Hst E) as [->|Hp];
        [now left | right].
      eapply progress_steps_r; eauto.
    + right. eapply progress_steps_l; eauto.
Qed.

Lemma relax_true n m c d updated st st' :
  relax dec n m c d updated st = (Ok true, st') ->
  updated = true \/ progress dec st st'.
Proof.
  rewrite relax_eq. unfold relax_result.
  destruct (entry dec st m d) as [e|] eqn:He; [|discriminate].
  destruct (py_add c (fst e)) as [new|x]; [|discriminate].
  destruct (entry dec st n d) as [best|] eqn:Hb; [|discriminate].
  destruct (cost_ltb new (fst best)) eqn:Hlt; intros H; inversion H; subst.
  - right. exists n, d, best, (new, Some m). split; [assumption|].
    split; [|exact Hlt].
    rewrite put_entry_entry by (eapply entry_Some_table; eauto).
    destruct (dec n n); [|congruence]. destruct (dec d d); congruence.
  - now left.
Qed.

Lemma update_routing_true st st' :
  update_routing dec st = (Ok true, st') -> progress dec st st'.
Proof.
  rewrite update_routing_eq. intros H.
  assert (Hgoal : false = true \/ progress dec st st').
  { refine (for_each_true _ (node_body dec) st (nodes st) _ _
              false st st' (steps_refl _ dec st) H).
    - intros n a u _ _. apply node_body_steps.
    - intros n a u u' _ Hs. unfold node_body, bind, graph_at.
      destruct (dict_get dec n (graph u)) as [g|] eqn:Hg; [|discriminate].
      intros Hn.
      refine (for_each_true _ (neighbor_body dec n) u g _ _
                a u u' (steps_refl _ dec u) Hn).
      + intros nc a1 u1 Hin Hs1. apply neighbor_body_steps with (g := g);
          [now rewrite (steps_graph _ _ _ _ Hs1) | assumption].
      + intros [m c] a1 u1 u1' Hin Hs1.
        unfold neighbor_body, bind, table_at. simpl fst. simpl snd.
        destruct (dict_get dec m (routing_tables u1)) as [t|]; [|discriminate].
        intros Hm.
        refine (for_each_true _
                  (fun dest updated => relax dec n m c dest updated) u1
                  (dict_keys t) _ _ a1 u1 u1' (steps_refl _ dec u1) Hm).
        * intros dest a2 u2 _ Hs2. apply relax_steps with (g := g); [|assumption].
          now rewrite (steps_graph _ _ _ _ Hs2), (steps_graph _ _ _ _ Hs1).
        * intros dest a2 u2 u2' _ _. apply relax_true. }
  destruct Hgoal; [discriminate | assumption].
Qed.

(** X8.  The flag returned by [update_routing] tells whether a table
    changed: when it returns [True], some entry has become strictly
    cheaper, and it returns [True] exactly when the state after the call
    differs from the state before. *)
Theorem update_routing_flag st b :
  fst (update_routing dec st) = Ok b ->
  (b = true -> progress dec st (after (update_routing dec) st)) /\
  (b = true <-> after (update_routing dec) st <> st).
Proof.
  intros H. unfold after.
  destruct (update_routing dec st) as [r st'] eqn:E. simpl in *. subst r.
  destruct b.
  - pose proof (update_routing_true st st' E) as Hp.
    split; [auto|]. split; [intros _; now apply progress_neq | reflexivity].
  - apply update_routing_false in E. subst st'.
    split; [discriminate|]. split; [discriminate | congruence].
Qed.

(** *** Raising *)

(** X9.  On an engine built by the constructor and successful [add_link]
    calls, with link costs that convert to a [float], [update_routing]
    never raises: neither before [initialize_tables] nor after it and any
    number of rounds. *)
Theorem update_routing_never_raises ns links st0 k :
  build dec ns links = (Ok tt, st0) ->
  graph_convertibleb st0 = true ->
  (exists b, fst (update_routing dec st0) = Ok b) /\
  (exists b, fst (update_routing dec (run dec k st0)) = Ok b).
Proof.
  intros Hb Hcb.
  pose proof (graph_convertibleb_sound _ dec _ Hcb) as Hconv.
  destruct (build_spec _ _ _ _ _ Hb) as (Hwf & _ & _).
  split; [apply update_routing_ok; assumption|].
  destruct (run_inv_rounds _ dec ns links st0 k Hb) as [Hwfk _ Hg _ _ _].
  apply update_routing_ok; [exact Hwfk|].
  unfold graph_convertible. fold (run dec k st0) in Hg. now rewrite Hg.
Qed.

Lemma neighbor_body_missing_table n m c updated st :
  table dec st m = None ->
  exists x, neighbor_body dec n (m, c) updated st = (Raise x, st).
Proof.
  unfold neighbor_body, bind, table_at, table. simpl. intros ->. eauto.
Qed.

Lemma node_body_missing_table st0 n g m c updated st b st' :
  steps dec st0 st ->
  dict_get dec n (graph st0) = Some g -> In (m, c) g ->
  table dec st0 m = None ->
  node_body dec n updated st = (Ok b, st') -> False.
Proof.
  intros Hs Hg Hin Ht. unfold node_body, bind, graph_at.
  rewrite (steps_graph _ _ _ _ Hs), Hg. intros Hrun.
  pose (Q := fun (nc : node * Z) (_ : Network node) => nc = (m, c) -> False).
  assert (Hstable : forall y u u', steps dec u u' -> Q y u -> Q y u')
    by (intros y u u' _ H; exact H).
  assert (Hbody : forall x a u a' u', In x g -> steps dec st u ->
             neighbor_body dec n x a u = (Ok a', u') -> steps dec u u' /\ Q x u').
  { intros x a u a' u' Hx Hu Hnb. split.
    - replace u' with (after (neighbor_body dec n x a) u)
        by (unfold after; now rewrite Hnb).
      apply neighbor_body_steps with (g := g); [|assumption].
      now rewrite (steps_graph _ _ _ _ Hu), (steps_graph _ _ _ _ Hs).
    - intros ->.
      destruct (neighbor_body_missing_table n m c a u) as [x Hx'].
      + apply (steps_table_None st u m Hu).
        apply (steps_table_None st0 st m Hs). exact Ht.
      + rewrite Hx' in Hnb. discriminate. }
  destruct (for_each_cover _ dec _ _ (neighbor_body dec n) st Q g
              Hstable Hbody updated st b st' (steps_refl _ dec st) Hrun)
    as [_ Hall].
  exact (Hall (m, c) Hin eq_refl).
Qed.

Lemma update_routing_missing_table st n g m c :
  In n (nodes st) -> dict_get dec n (graph st) = Some g -> In (m, c) g ->
  table dec st m = None ->
  exists x, fst (update_routing dec st) = Raise x.
Proof.
  intros Hn Hg Hin Ht.
  destruct (update_routing dec st) as [[b|x] st'] eqn:E; [|simpl; eauto].
  exfalso. rewrite update_routing_eq in E.
  pose (Q := fun (x : node) (_ : Network node) => x = n -> False).
  assert (Hstable : forall y u u', steps dec u u' -> Q y u -> Q y u')
    by (intros y u u' _ H; exact H).
  assert (Hbody : forall x a u a' u', In x (nodes st) -> steps dec st u ->
             node_body dec x a u = (Ok a', u') -> steps dec u u' /\ Q x u').
  { intros x a u a' u' _ Hu Hnb. split.
    - replace u' with (after (node_body dec x a) u)
        by (unfold after; now rewrite Hnb).
      apply node_body_steps.
    - intros ->. eapply node_body_missing_table; eauto. }
  destruct (for_each_cover _ dec _ _ (node_body dec) st Q (nodes st)
              Hstable Hbody false st b st' (steps_refl _ dec st) E)
    as [_ Hall].
  exact (Hall n Hn eq_refl).
Qed.

(** X10.  A failed [add_link] poisons the engine.  In a reachable state,
    after [add_link(node1, node2, c)] with [node1] known and [node2]
    unknown, every later call of [update_routing] raises: [node2] is now
    a neighbour of [node1] and has no routing table. *)
Theorem update_routing_after_failed_add_link st node1 node2 c k :
  reachable dec st ->
  In node1 (nodes st) -> ~ In node2 (nodes st) ->
  exists x,
    fst (update_routing dec
           (rounds dec k (after (add_link dec node1 node2 c) st)))
    = Raise x.
Proof.
  intros Hr H1 H2.
  pose proof (reachable_graph_keys _ dec st Hr) as Hk.
  pose proof (reachable_tables_ok st Hr) as Hok.
  destruct (dict_get dec node1 (graph st)) as [g1|] eqn:Hg1;
    [|exfalso; apply (proj1 (Hk node1) H1); exact Hg1].
  assert (Hafter : after (add_link dec node1 node2 c) st
                   = put_link dec node1 node2 c st).
  { unfold after. rewrite add_link_eq, Hg1.
    destruct (dict_get dec node2 (graph (put_link dec node1 node2 c st))) eqn:E;
      [|reflexivity].
    exfalso. apply H2. apply Hk.
    apply (put_link_get_None _ dec node1 node2 c st node2). congruence. }
  rewrite Hafter. set (st1 := put_link dec node1 node2 c st).
  pose proof (rounds_steps _ dec k st1) as Hs.
  apply update_routing_missing_table
    with (n := node1) (g := dict_set dec node2 c g1) (m := node2) (c := c).
  - rewrite (steps_nodes _ _ _ _ Hs). unfold st1. now rewrite put_link_nodes.
  - rewrite (steps_graph _ _ _ _ Hs). unfold st1.
    rewrite (put_link_graph _ dec node1 node2 c st g1 node1 Hg1).
    destruct (dec node1 node1); congruence.
  - apply dict_get_Some_In with (dec := dec). apply dict_get_set_eq.
  - apply (steps_table_None st1 _ node2 Hs). unfold st1, table.
    rewrite put_link_tables.
    destruct (dict_get dec node2 (routing_tables st)) eqn:E; [|reflexivity].
    exfalso. apply H2. apply Hok. unfold table. congruence.
Qed.

Lemma reachable_entry_shape st :
  reachable dec st -> forall s d e, entry dec st s d = Some e -> entry_shape e.
Proof.
  apply (reachable_invariant _ dec
           (fun st => forall s d e, entry dec st s d = Some e -> entry_shape e)).
  - intros ns s d e He. left. eapply all_inf_init; eauto.
  - intros st0 n1 n2 c H s d e. rewrite entry_put_link. apply H.
  - intros st0 n0 H s d e.
    destruct (table dec st0 n0) as [t|] eqn:Ht.
    + rewrite put_entry_entry by congruence.
      destruct (dec n0 s); [destruct (dec n0 d)|]; try apply H.
      intros He. inversion He. right. eauto.
    + unfold put_entry. unfold table in Ht. rewrite Ht. apply H.
  - intros st0 st' H Hs s d e.
    destruct Hs as [n0 m0 g c d0 e0 best new Hg Hin He Hb Hadd Hlt].
    rewrite put_entry_entry by (eapply entry_Some_table; eauto).
    destruct (dec n0 s); [destruct (dec d0 d)|]; try apply H.
    intros H1. inversion H1.
    destruct (py_add_lt_inv _ _ _ _ Hadd Hlt) as (z0 & _ & ->).
    right. eauto.
Qed.

(** X11.  In every reachable state an entry has an infinite cost exactly
    when its next hop is [None]: it is either [(float('inf'), None)] or an
    [int] cost together with a node. *)
Theorem entry_cost_and_next_hop st s d c h :
  reachable dec st ->
  entry dec st s d = Some (c, h) ->
  (c = Inf <-> h = None) /\ entry_shape (c, h).
Proof.
  intros Hr He. pose proof (reachable_entry_shape st Hr s d _ He) as Hs.
  split; [|exact Hs].
  destruct Hs as [H|(z & m & H)]; inversion H; subst; split; congruence.
Qed.
End Calls.


(** ** [simulate] and the fixed point, continued *)

Section Simulation.
Variable node : Type.
Variable dec : forall x y : node, {x = y} + {x <> y}.

Implicit Types (st : Network node) (n m s d : node) (p q : list node).

Lemma rounds_shift k st :
  rounds dec (S k) st = rounds dec k (after (update_routing dec) st).
Proof.
  induction k as [|k IH]; [reflexivity|].
  change (rounds dec (S (S k)) st)
    with (after (update_routing dec) (rounds dec (S k) st)).
  now rewrite IH.
Qed.

Lemma simulate_loop_break fuel :
  forall i st k st',
    simulate_loop dec fuel i st = (Ok (Some k), st') ->
    exists j, k = (i + j)%nat /\ st' = rounds dec j st /\
              fst (update_routing dec st') = Ok false /\
              forall j', (j' < j)%nat ->
                fst (update_routing dec (rounds dec j' st)) = Ok true.
Proof.
  induction fuel as [|fuel IH]; intros i st k st'; simpl.
  - unfold ret. discriminate.
  - unfold bind. destruct (update_routing dec st) as [[[|]|x] s1] eqn:E;
      [| |discriminate].
    + intros H. destruct (IH _ _ _ _ H) as (j & -> & -> & Hf & Hall).
      assert (Hs1 : s1 = after (update_routing dec) st)
        by (unfold after; now rewrite E).
      exists (S j). split; [lia|]. rewrite rounds_shift, <- Hs1.
      split; [reflexivity|]. split; [exact Hf|].
      intros [|j'] Hj.
      * simpl. now rewrite E.
      * rewrite rounds_shift, <- Hs1. apply Hall. lia.
    + unfold ret. intros H. inversion H; subst.
      pose proof (update_routing_false _ dec _ _ E) as ->.
      exists 0%nat. split; [lia|]. split; [reflexivity|].
      split; [now rewrite E|]. intros j' Hj. lia.
Qed.

(** X12.  When [simulate] leaves its loop, the value [k] of [iteration]
    is the number of rounds that changed a table: [initialize_tables]
    returned normally, the state is the one after initialization and [k]
    calls of [update_routing], each of which returned [True], and
    [update_routing] returns [False] in it. *)
Theorem simulate_break fuel st k st' :
  simulate dec fuel st = (Ok (Some k), st') ->
  fst (initialize_tables dec st) = Ok tt /\
  st' = run dec k st /\
  fst (update_routing dec st') = Ok false /\
  forall j, (j < k)%nat -> fst (update_routing dec (run dec j st)) = Ok true.
Proof.
  unfold simulate, bind, run, after.
  destruct (initialize_tables dec st) as [[[]|x] s0] eqn:E; [|discriminate].
  simpl. intros H.
  destruct (simulate_loop_break _ _ _ _ _ H) as (j & Hk & -> & Hf & Hall).
  simpl in Hk. subst j. auto.
Qed.

Lemma simulate_loop_converges fuel :
  forall i st j,
    (j < fuel)%nat ->
    (forall j', (j' <= j)%nat ->
       exists b, fst (update_routing dec (rounds dec j' st)) = Ok b) ->
    fst (update_routing dec (rounds dec j st)) = Ok false ->
    exists k, (k <= j)%nat /\
      simulate_loop dec fuel i st = (Ok (Some (i + k)%nat), rounds dec k st).
Proof.
  induction fuel as [|fuel IH]; intros i st j Hj Hok Hfalse; [lia|].
  simpl. unfold bind.
  destruct (Hok 0%nat (Nat.le_0_l _)) as [b Hb]. simpl in Hb.
  destruct (update_routing dec st) as [r s1] eqn:E. simpl in Hb. subst r.
  assert (Hs1 : s1 = after (update_routing dec) st)
    by (unfold after; now rewrite E).
  destruct b.
  - destruct j as [|j].
    { simpl in Hfalse. rewrite E in Hfalse. discriminate. }
    destruct (IH (S i) s1 j) as (k & Hk & Hrun); [lia| | |].
    + intros j' Hj'. rewrite Hs1, <- rounds_shift. apply Hok. lia.
    + rewrite Hs1, <- rounds_shift. exact Hfalse.
    + exists (S k). split; [lia|]. rewrite Hrun, rounds_shift, <- Hs1.
      do 3 f_equal. lia.
  - pose proof (update_routing_false _ dec _ _ E) as ->.
    exists 0%nat. split; [lia|]. unfold ret. simpl. do 3 f_equal. lia.
Qed.

Lemma run_fixed_at_bound ns links st0 :
  build dec ns links = (Ok tt, st0) ->
  graph_nonneg dec st0 -> graph_convertible dec st0 ->
  update_routing dec (run dec (List.length (nodup dec ns) - 1) st0)
  = (Ok false, run dec (List.length (nodup dec ns) - 1) st0).
Proof.
  intros Hb Hnn Hconv.
  destruct (build_spec _ _ _ _ _ Hb) as (_ & Hns & _).
  set (k := (List.length (nodup dec ns) - 1)%nat).
  destruct (run_inv_rounds _ dec ns links st0 0 Hb)
    as [Hwf1 Hn1 Hg1 _ _ Hnz1].
  destruct (Hnz1 Hnn) as [_ Hzero1].
  destruct (run_inv_rounds _ dec ns links st0 k Hb)
    as [Hwf Hn Hg Hs _ _].
  fold (run dec k st0) in *. fold (run dec 0 st0) in *.
  assert (Hconv1 : graph_convertible dec (run dec 0 st0))
    by (unfold graph_convertible; now rewrite Hg1).
  assert (Hgn : graph_nonneg dec (run dec k st0))
    by (unfold graph_nonneg; now rewrite Hg).
  assert (Hgc : graph_convertible dec (run dec k st0))
    by (unfold graph_convertible; now rewrite Hg).
  apply update_routing_fix; auto.
  apply bounded_settled; auto.
  rewrite Hn, Hns. fold k.
  apply (bounded_rounds _ dec (run dec 0 st0) k Hwf1 Hconv1 Hzero1).
Qed.

(** X13.  [simulate] terminates.  On an engine built by the constructor
    and successful [add_link] calls, with [N] distinct nodes and link
    costs that are non-negative and convert to a [float], the loop of
    [simulate] reaches its [break] after at most [N - 1] rounds that
    changed a table, without raising; any fuel above [N - 1] is enough. *)
Theorem simulate_terminates ns links st0 fuel :
  build dec ns links = (Ok tt, st0) ->
  graph_nonnegb st0 = true ->
  graph_convertibleb st0 = true ->
  (List.length (nodup dec ns) - 1 < fuel)%nat ->
  exists k, (k <= List.length (nodup dec ns) - 1)%nat /\
            simulate dec fuel st0 = (Ok (Some k), run dec k st0).
Proof.
  intros Hb Hnnb Hcb Hfuel.
  pose proof (graph_nonnegb_sound _ dec _ Hnnb) as Hnn.
  pose proof (graph_convertibleb_sound _ dec _ Hcb) as Hconv.
  destruct (run_inv_start _ dec ns links st0 Hb) as [Hinit _].
  destruct (simulate_loop_converges fuel 0%nat
              (after (initialize_tables dec) st0)
              (List.length (nodup dec ns) - 1)%nat Hfuel)
    as (k & Hk & Hrun).
  - intros j _.
    destruct (run_inv_rounds _ dec ns links st0 j Hb) as [Hwf _ Hg _ _ _].
    apply update_routing_ok; [exact Hwf|].
    unfold graph_convertible. now rewrite Hg.
  - pose proof (run_fixed_at_bound ns links st0 Hb Hnn Hconv) as H.
    unfold run in H. now rewrite H.
  - exists k. split; [exact Hk|].
    unfold simulate, bind. rewrite Hinit. exact Hrun.
Qed.

(** *** Negative costs *)

(** X14.  A link of negative cost prevents convergence.  On an engine
    built by the constructor and successful [add_link] calls that has a
    link of negative cost, [update_routing] never returns [False] after
    [initialize_tables], however many rounds are run, so [simulate]
    never reaches its [break]. *)
Theorem negative_link_never_converges ns links st0 n m c :
  build dec ns links = (Ok tt, st0) ->
  link dec st0 n m = Some c ->
  c < 0 ->
  (forall k, fst (update_routing dec (run dec k st0)) <> Ok false) /\
  (forall fuel k, fst (simulate dec fuel st0) <> Ok (Some k)).
Proof.
  intros Hb Hl Hc.
  assert (Hmain : forall k, fst (update_routing dec (run dec k st0)) <> Ok false).
  { intros k Hfalse.
    destruct (build_spec _ _ _ _ _ Hb) as (Hwf0 & Hns & _).
    pose proof (build_symmetric _ dec ns links st0 Hb) as Hsym.
    destruct (run_inv_rounds _ dec ns links st0 k Hb) as [Hwf Hn Hg _ _ _].
    fold (run dec k st0) in *. set (st := run dec k st0) in *.
    pose proof (returns_false_fixed _ dec st Hfalse) as Hfix.
    pose proof (converged_settled _ dec st Hfix) as Hset.
    assert (Hl1 : link dec st n m = Some c) by (unfold link; now rewrite Hg).
    assert (Hl2 : link dec st m n = Some c)
      by (unfold link; rewrite Hg; fold (link dec st0 m n); now rewrite <- Hsym).
    destruct (link_edge _ _ _ _ _ _ Hl1) as (g1 & Hg1 & Hin1).
    destruct (link_edge _ _ _ _ _ _ Hl2) as (g2 & Hg2 & Hin2).
    assert (Hnn : In n (nodes st)) by (eapply wf_graph_keys; eauto).
    assert (Hmn : In m (nodes st)) by (eapply wf_graph_keys; eauto).
    destruct (initialize_tables_spec _ dec st0 Hwf0)
      as (st1 & Hrun & _ & Hn1 & _ & He1).
    assert (Hst1 : after (initialize_tables dec) st0 = st1)
      by (unfold after; now rewrite Hrun).
    assert (Hzero : entry dec st1 n n = Some (Fin 0, Some n)).
    { rewrite He1. destruct (dec n n); [|congruence].
      rewrite Hn in Hnn.
      destruct (in_dec dec n (nodes st0)); [reflexivity | contradiction]. }
    assert (Hsteps : steps dec st1 st).
    { unfold st, run. rewrite Hst1. apply rounds_steps. }
    destruct (steps_entry _ dec _ _ _ _ _ Hsteps Hzero) as (e & He & Himp).
    apply improves_le in Himp. destruct e as [[z|] h]; simpl in Himp;
      [|contradiction].
    destruct (Hset m g2 n c n Hmn Hg2 Hin2 _ He) as (e1 & Hm1 & Hle1).
    destruct e1 as [[z1|] h1]; simpl in Hle1; [|contradiction].
    destruct (Hset n g1 m c n Hnn Hg1 Hin1 _ Hm1) as (e2 & He2 & Hle2).
    rewrite He in He2. inversion He2; subst e2. simpl in Hle2. lia. }
  split; [exact Hmain|].
  intros fuel k Hs. unfold simulate, bind in Hs.
  destruct (initialize_tables dec st0) as [[[]|x] s0] eqn:E;
    [|simpl in Hs; discriminate].
  destruct (simulate_loop dec fuel 0 s0) as [r st'] eqn:El. simpl in Hs. subst r.
  destruct (simulate_loop_break _ _ _ _ _ El) as (j & _ & -> & Hf & _).
  apply (Hmain j). unfold run, after. rewrite E. exact Hf.
Qed.

(** *** Costs at the fixed point *)

Lemma cost_le_antisym a b : cost_le a b -> cost_le b a -> a = b.
Proof.
  destruct a, b; simpl; try tauto. intros. f_equal. lia.
Qed.

Lemma path_reverse st :
  graph_symmetric dec st ->
  forall p s d z, path_cost dec st s p = Some z -> last p s = d ->
    exists q, path_cost dec st d q = Some z /\ last q d = s.
Proof.
  intros Hsym. induction p as [|m p IH]; intros s d z Hp Hlast.
  - simpl in *. subst d. exists []. auto.
  - rewrite last_cons in Hlast. simpl in Hp.
    destruct (link dec st s m) as [w|] eqn:Hl; [|discriminate].
    destruct (path_cost dec st m p) as [z0|] eqn:Hp0; [|discriminate].
    inversion Hp; subst z.
    destruct (IH m d z0 Hp0 Hlast) as (q & Hq & Hlq).
    exists (q ++ [s]). split; [|apply last_last].
    rewrite path_cost_app, Hq, Hlq. simpl.
    rewrite <- (Hsym s m), Hl. f_equal. lia.
Qed.

Lemma converged_cost_le ns links st0 k S D e1 e2 :
  build dec ns links = (Ok tt, st0) ->
  graph_nonneg dec st0 ->
  update_routing dec (run dec k st0) = (Ok false, run dec k st0) ->
  In S ns ->
  entry dec (run dec k st0) S D = Some e1 ->
  entry dec (run dec k st0) D S = Some e2 ->
  cost_le (fst e1) (fst e2).
Proof.
  intros Hb Hnn Hfix HS He1 He2.
  destruct (build_spec _ _ _ _ _ Hb) as (_ & Hns & _).
  pose proof (build_symmetric _ dec ns links st0 Hb) as Hsym0.
  destruct (run_inv_rounds _ dec ns links st0 k Hb) as [Hwf Hn Hg Hs _ Hnz].
  destruct (Hnz Hnn) as [_ Hzero].
  fold (run dec k st0) in *. set (st := run dec k st0) in *.
  assert (Hsym : graph_symmetric dec st)
    by (intros a b; unfold link; rewrite Hg; apply Hsym0).
  pose proof (converged_settled _ dec st Hfix) as Hset.
  destruct (Hs _ _ _ He2) as [->|(z & M & p & -> & Hp & Hlast)].
  - simpl. destruct (fst e1); exact I.
  - destruct (path_reverse st Hsym p D S z Hp Hlast) as (q & Hq & Hlq).
    destruct (settled_le_path _ dec st Hwf Hset Hzero q S z) as (e & He & Hle);
      [rewrite Hn, Hns; exact HS | exact Hq |].
    rewrite Hlq, He1 in He. inversion He; subst e. exact Hle.
Qed.

(** X15.  At the fixed point the recorded costs are symmetric.  For an
    engine with non-negative link costs, after [initialize_tables] and any
    number of rounds, if [update_routing] returns [False] then for all
    nodes [S] and [D] the cost recorded by [S] for [D] equals the cost
    recorded by [D] for [S]. *)
Theorem converged_costs_symmetric ns links st0 k S D :
  build dec ns links = (Ok tt, st0) ->
  graph_nonnegb st0 = true ->
  fst (update_routing dec (run dec k st0)) = Ok false ->
  In S ns -> In D ns ->
  exists c h1 h2,
    entry dec (run dec k st0) S D = Some (c, h1) /\
    entry dec (run dec k st0) D S = Some (c, h2).
Proof.
  intros Hb Hnnb Hfalse HS HD.
  pose proof (graph_nonnegb_sound _ dec _ Hnnb) as Hnn.
  pose proof (returns_false_fixed _ dec _ Hfalse) as Hfix.
  destruct (build_spec _ _ _ _ _ Hb) as (_ & Hns & _).
  destruct (run_inv_rounds _ dec ns links st0 k Hb) as [Hwf Hn _ _ _ _].
  fold (run dec k st0) in *.
  destruct (wf_entry _ dec _ S D Hwf) as [[c1 h1] He1];
    [rewrite Hn, Hns; assumption | rewrite Hn, Hns; assumption |].
  destruct (wf_entry _ dec _ D S Hwf) as [[c2 h2] He2];
    [rewrite Hn, Hns; assumption | rewrite Hn, Hns; assumption |].
  pose proof (converged_cost_le ns links st0 k S D _ _ Hb Hnn Hfix HS He1 He2)
    as H12.
  pose proof (converged_cost_le ns links st0 k D S _ _ Hb Hnn Hfix HD He2 He1)
    as H21.
  simpl in H12, H21. pose proof (cost_le_antisym _ _ H12 H21) as ->.
  exists c2, h1, h2. auto.
Qed.

(** X16.  A recorded cost is never invented.  On an engine built by the
    constructor and successful [add_link] calls, after
    [initialize_tables] and any number of rounds, converged or not, every
    finite cost recorded by [S] for [D] is the cost of a path of the graph
    from [S] to [D]. *)
Theorem recorded_cost_is_path_cost ns links st0 k S D z h :
  build dec ns links = (Ok tt, st0) ->
  entry dec (run dec k st0) S D = Some (Fin z, h) ->
  exists p, path_cost dec st0 S p = Some z /\ last p S = D.
Proof.
  intros Hb He.
  destruct (run_inv_rounds _ dec ns links st0 k Hb) as [_ _ Hg Hs _ _].
  fold (run dec k st0) in *.
  destruct (Hs _ _ _ He) as [H|(z' & M & p & H & Hp & Hlast)];
    [discriminate|].
  assert (Hz : z' = z) by congruence. subst z'.
  exists p. split; [|exact Hlast].
  rewrite <- (path_cost_graph _ dec st0 (run dec k st0)); assumption.
Qed.
(** X17.  Calling [initialize_tables] again in the middle of a simulation
    is harmless when the link costs are non-negative: after
    [initialize_tables] and any number of rounds, a further
    [initialize_tables] returns normally and changes nothing, so the
    entries found by the rounds are kept. *)
Theorem reinitialize_noop ns links st0 k :
  build dec ns links = (Ok tt, st0) ->
  graph_nonnegb st0 = true ->
  initialize_tables dec (run dec k st0) = (Ok tt, run dec k st0).
Proof.
  intros Hb Hnnb.
  destruct (run_inv_rounds _ dec ns links st0 k Hb) as [_ _ _ _ _ Hnz].
  destruct (Hnz (graph_nonnegb_sound _ dec _ Hnnb)) as [_ Hzero].
  fold (run dec k st0) in *.
  unfold initialize_tables. apply initialize_loop_fixed.
  intros n Hn. now apply Hzero.
Qed.
End Simulation.

(** ** The network of the script and the examples *)

Local Open Scope string_scope.

(** C3, as amended.  On the eight-node network of the script, [simulate]
    stops after four rounds that changed something; in the state reached
    [update_routing] returns [False], and the table of [A] records cost 5
    for [H], with next hop [B] (the path A-B-C-H, 2 + 2 + 1). *)
Theorem script_network_A_H :
  simulate string_dec 10 network = (Ok (Some 4%nat), run string_dec 4 network) /\
  fst (update_routing string_dec (run string_dec 4 network)) = Ok false /\
  entry string_dec (run string_dec 4 network) "A" "H" = Some (Fin 5, Some "B").
Proof. vm_compute. repeat split; reflexivity. Qed.

(** C3 as stated fails: at the fixed point the cost recorded by [A] for [H]
    is not 6. *)
Lemma script_network_A_H_not_6 :
  fst (update_routing string_dec (run string_dec 4 network)) = Ok false /\
  option_map fst (entry string_dec (run string_dec 4 network) "A" "H")
  <> Some (Fin 6).
Proof. vm_compute. split; [reflexivity | discriminate]. Qed.

(** C1 as stated fails twice.  An engine that was never initialized is in
    a state where [update_routing] returns [False], yet the table of [A]
    records infinity for its neighbour [B].  And in the converged network
    of the script the pair [(A, A)] has next hop [A], which is no key of
    [graph[A]], so that [graph[S][M]] does not exist. *)
Lemma shortest_path_counterexample :
  (fst (update_routing string_dec pair_engine) = Ok false /\
   graph_nonnegb pair_engine = true /\
   path_cost string_dec pair_engine "A" ["B"] = Some 1 /\
   entry string_dec pair_engine "A" "B" = Some (Inf, None)) /\
  (fst (update_routing string_dec (run string_dec 4 network)) = Ok false /\
   graph_nonnegb network = true /\
   path_cost string_dec (run string_dec 4 network) "A" ["B"; "A"] = Some 4 /\
   entry string_dec (run string_dec 4 network) "A" "A" = Some (Fin 0, Some "A") /\
   link string_dec (run string_dec 4 network) "A" "A" = None).
Proof. vm_compute. repeat split; reflexivity. Qed.

(** [shortest_path_at_convergence] on the network of the script, from [A]
    to [H]. *)
Lemma shortest_path_at_convergence_witness :
  build string_dec script_nodes script_links = (Ok tt, network) /\
  graph_nonnegb network = true /\
  fst (update_routing string_dec (run string_dec 4 network)) = Ok false /\
  In "A" script_nodes /\
  connected string_dec (run string_dec 4 network) "A" "H" /\
  exists z M,
    entry string_dec (run string_dec 4 network) "A" "H" = Some (Fin z, Some M) /\
    is_dist string_dec (run string_dec 4 network) "A" "H" z /\
    ("A" <> "H" ->
     exists w z' h,
       link string_dec (run string_dec 4 network) "A" M = Some w /\
       entry string_dec (run string_dec 4 network) M "H" = Some (Fin z', h) /\
       w + z' = z).
Proof.
  assert (H1 : build string_dec script_nodes script_links = (Ok tt, network))
    by (vm_compute; reflexivity).
  assert (H2 : graph_nonnegb network = true) by (vm_compute; reflexivity).
  assert (H3 : fst (update_routing string_dec (run string_dec 4 network)) = Ok false)
    by (vm_compute; reflexivity).
  assert (H4 : In "A" script_nodes) by (left; reflexivity).
  assert (H5 : connected string_dec (run string_dec 4 network) "A" "H").
  { exists ["B"; "C"; "H"], 5. split; vm_compute; reflexivity. }
  repeat (split; [assumption|]).
  exact (shortest_path_at_convergence string string_dec script_nodes script_links
           network 4%nat "A" "H" H1 H2 H3 H4 H5).
Defined.

(** C2 as stated fails: two nodes joined by a link of cost [2^1024] form a
    connected graph with non-negative costs, and after initialization every
    call of [update_routing] raises [OverflowError] instead of returning. *)
Lemma convergence_overflow_counterexample :
  build string_dec ["A"; "B"] [("A", "B", 2 ^ 1024)] = (Ok tt, huge_engine) /\
  graph_nonnegb huge_engine = true /\
  link string_dec huge_engine "A" "B" = Some (2 ^ 1024) /\
  link string_dec huge_engine "B" "A" = Some (2 ^ 1024) /\
  fst (update_routing string_dec (run string_dec 0 huge_engine))
  = Raise OverflowError /\
  fst (update_routing string_dec (run string_dec 1 huge_engine))
  = Raise OverflowError.
Proof. vm_compute. repeat split; reflexivity. Qed.

(** [convergence_within_bound] on the network of the script. *)
Lemma convergence_within_bound_witness :
  build string_dec script_nodes script_links = (Ok tt, network) /\
  graph_nonnegb network = true /\
  graph_convertibleb network = true /\
  exists k, (k <= List.length (nodup string_dec script_nodes) - 1)%nat /\
            update_routing string_dec (run string_dec k network)
            = (Ok false, run string_dec k network).
Proof.
  assert (H1 : build string_dec script_nodes script_links = (Ok tt, network))
    by (vm_compute; reflexivity).
  assert (H2 : graph_nonnegb network = true) by (vm_compute; reflexivity).
  assert (H3 : graph_convertibleb network = true) by (vm_compute; reflexivity).
  repeat (split; [assumption|]).
  exact (convergence_within_bound string string_dec script_nodes script_links
           network H1 H2 H3).
Defined.

(** [self_cost_invariant] on the network of the script, node [C], three
    rounds. *)
Lemma self_cost_invariant_witness :
  build string_dec script_nodes script_links = (Ok tt, network) /\
  graph_nonnegb network = true /\
  In "C" script_nodes /\
  entry string_dec (run string_dec 3 network) "C" "C" = Some (Fin 0, Some "C").
Proof.
  assert (H1 : build string_dec script_nodes script_links = (Ok tt, network))
    by (vm_compute; reflexivity).
  assert (H2 : graph_nonnegb network = true) by (vm_compute; reflexivity).
  assert (H3 : In "C" script_nodes) by (simpl; tauto).
  repeat (split; [assumption|]).
  exact (self_cost_invariant string string_dec script_nodes script_links
           network 3%nat "C" H1 H2 H3).
Defined.

(** [update_routing_monotone] on the network of the script: the third
    round replaces the cost 7 recorded by [A] for [H]. *)
Lemma update_routing_monotone_witness :
  entry string_dec (run string_dec 2 network) "A" "H" = Some (Fin 7, Some "E") /\
  exists e',
    entry string_dec (after (update_routing string_dec) (run string_dec 2 network))
      "A" "H" = Some e' /\
    cost_le (fst e') (Fin 7) /\
    (e' = (Fin 7, Some "E") \/ cost_lt (fst e') (Fin 7)).
Proof.
  assert (H1 : entry string_dec (run string_dec 2 network) "A" "H"
               = Some (Fin 7, Some "E")) by (vm_compute; reflexivity).
  split; [assumption|].
  exact (update_routing_monotone string string_dec (run string_dec 2 network)
           "A" "H" (Fin 7, Some "E") H1).
Defined.

(** [fixed_point_idempotent] at the fixed point of the network of the
    script. *)
Lemma fixed_point_idempotent_witness :
  fst (update_routing string_dec (run string_dec 4 network)) = Ok false /\
  after (update_routing string_dec) (run string_dec 4 network)
  = run string_dec 4 network /\
  fst (update_routing string_dec
         (after (update_routing string_dec) (run string_dec 4 network)))
  = Ok false /\
  after (update_routing string_dec)
    (after (update_routing string_dec) (run string_dec 4 network))
  = after (update_routing string_dec) (run string_dec 4 network).
Proof.
  assert (H1 : fst (update_routing string_dec (run string_dec 4 network)) = Ok false)
    by (vm_compute; reflexivity).
  split; [assumption|].
  exact (fixed_point_idempotent string string_dec (run string_dec 4 network) H1).
Defined.

(** C7 as stated fails: with [node1] known and [node2] unknown the call
    raises [KeyError] after it has added [node2] to [graph[node1]]. *)
Lemma add_link_unknown_node_mutates :
  ~ In "Z" (nodes lone_engine) /\
  fst (add_link string_dec "A" "Z" 1 lone_engine) = Raise KeyError /\
  graph lone_engine = [("A", [])] /\
  graph (after (add_link string_dec "A" "Z" 1) lone_engine) = [("A", [("Z", 1)])] /\
  graph (after (add_link string_dec "A" "Z" 1) lone_engine) <> graph lone_engine.
Proof.
  split; [simpl; intros [H|[]]; discriminate|].
  vm_compute. repeat split; try reflexivity. discriminate.
Qed.

(** [add_link_unknown_node] on a one-node engine and an unknown [Z]. *)
Lemma add_link_unknown_node_witness :
  reachable string_dec lone_engine /\
  (~ In "A" (nodes lone_engine) \/ ~ In "Z" (nodes lone_engine)) /\
  fst (add_link string_dec "A" "Z" 1 lone_engine) = Raise KeyError /\
  nodes (after (add_link string_dec "A" "Z" 1) lone_engine) = nodes lone_engine /\
  routing_tables (after (add_link string_dec "A" "Z" 1) lone_engine)
  = routing_tables lone_engine /\
  (~ In "A" (nodes lone_engine) ->
   after (add_link string_dec "A" "Z" 1) lone_engine = lone_engine) /\
  (In "A" (nodes lone_engine) ->
   after (add_link string_dec "A" "Z" 1) lone_engine
   = put_link string_dec "A" "Z" 1 lone_engine /\
   link string_dec (after (add_link string_dec "A" "Z" 1) lone_engine) "A" "Z"
   = Some 1).
Proof.
  assert (H1 : reachable string_dec lone_engine) by constructor.
  assert (H2 : ~ In "A" (nodes lone_engine) \/ ~ In "Z" (nodes lone_engine)).
  { right. simpl. intros [H|[]]. discriminate. }
  repeat (split; [assumption|]).
  exact (add_link_unknown_node string string_dec lone_engine "A" "Z" 1 H1 H2).
Defined.

(** In the two islands a path that starts at [A] or [B] ends at [A] or
    [B]. *)
Lemma islands_closed p :
  forall s z, s = "A" \/ s = "B" ->
    path_cost string_dec islands_engine s p = Some z ->
    last p s = "A" \/ last p s = "B".
Proof.
  induction p as [|m p IH]; intros s z Hs Hp.
  - exact Hs.
  - rewrite last_cons. simpl in Hp.
    destruct (link string_dec islands_engine s m) as [w|] eqn:Hl;
      [|discriminate].
    destruct (path_cost string_dec islands_engine m p) as [z0|] eqn:Hp0;
      [|discriminate].
    apply (IH m z0); [|exact Hp0].
    destruct (link_edge _ _ _ _ _ _ Hl) as (g & Hg & Hin).
    destruct Hs as [-> | ->]; vm_compute in Hg; inversion Hg; subst g;
      destruct Hin as [Hin|[]]; inversion Hin; auto.
Qed.

(** [unreachable_stay_infinite] on the two islands, for [A] and [C]: the
    rounds do write entries inside each island ([A] records [(1, B)] for
    [B]), and [A] still records [(float('inf'), None)] for [C]. *)
Lemma unreachable_stay_infinite_witness :
  build string_dec ["A"; "B"; "C"; "D"] [("A", "B", 1); ("C", "D", 2)]
  = (Ok tt, islands_engine) /\
  In "A" ["A"; "B"; "C"; "D"] /\ In "C" ["A"; "B"; "C"; "D"] /\
  ~ connected string_dec islands_engine "A" "C" /\
  entry string_dec (run string_dec 3 islands_engine) "A" "C" = Some (Inf, None).
Proof.
  assert (H1 : build string_dec ["A"; "B"; "C"; "D"]
                 [("A", "B", 1); ("C", "D", 2)] = (Ok tt, islands_engine))
    by (vm_compute; reflexivity).
  assert (H2 : In "A" ["A"; "B"; "C"; "D"]) by (simpl; tauto).
  assert (H3 : In "C" ["A"; "B"; "C"; "D"]) by (simpl; tauto).
  assert (H4 : ~ connected string_dec islands_engine "A" "C").
  { intros (p & z & Hp & Hlast).
    destruct (islands_closed p "A" z (or_introl eq_refl) Hp) as [H|H];
      rewrite Hlast in H; discriminate. }
  repeat (split; [assumption|]).
  exact (unreachable_stay_infinite string string_dec ["A"; "B"; "C"; "D"]
           [("A", "B", 1); ("C", "D", 2)] islands_engine 3%nat "A" "C"
           H1 H2 H3 H4).
Defined.

(** The rounds on the two islands are not idle: they record the link
    inside each island and reach a fixed point. *)
Lemma islands_rounds_write :
  entry string_dec (run string_dec 3 islands_engine) "A" "B"
  = Some (Fin 1, Some "B") /\
  entry string_dec (run string_dec 3 islands_engine) "C" "D"
  = Some (Fin 2, Some "D") /\
  fst (update_routing string_dec (run string_dec 0 islands_engine)) = Ok true /\
  fst (update_routing string_dec (run string_dec 3 islands_engine)) = Ok false.
Proof. vm_compute. repeat split; reflexivity. Qed.

(** [next_hop_is_neighbor] on two linked nodes after one round. *)
Lemma next_hop_is_neighbor_witness :
  reachable string_dec pair_round /\
  "A" <> "B" /\
  entry string_dec pair_round "A" "B" = Some (Fin 1, Some "B") /\
  exists g, dict_get string_dec "A" (graph pair_round) = Some g /\
            In "B" (dict_keys g).
Proof.
  assert (H1 : reachable string_dec pair_round) by (repeat constructor).
  assert (H2 : "A" <> "B") by discriminate.
  assert (H3 : entry string_dec pair_round "A" "B" = Some (Fin 1, Some "B"))
    by (vm_compute; reflexivity).
  repeat (split; [assumption|]).
  exact (next_hop_is_neighbor string string_dec pair_round "A" "B" (Fin 1) "B"
           H1 H2 H3).
Defined.



(** ** The further properties on the examples *)

(** [add_link_known_nodes] on two fresh nodes. *)
Lemma add_link_known_nodes_witness :
  reachable string_dec (__init__ string_dec ["A"; "B"]) /\
  In "A" (nodes (__init__ string_dec ["A"; "B"])) /\
  In "B" (nodes (__init__ string_dec ["A"; "B"])) /\
  fst (add_link string_dec "A" "B" 3 (__init__ string_dec ["A"; "B"])) = Ok tt /\
  link string_dec
    (after (add_link string_dec "A" "B" 3) (__init__ string_dec ["A"; "B"]))
    "A" "B" = Some 3 /\
  link string_dec
    (after (add_link string_dec "A" "B" 3) (__init__ string_dec ["A"; "B"]))
    "B" "A" = Some 3 /\
  (forall a b, (a, b) <> ("A", "B") -> (a, b) <> ("B", "A") ->
     link string_dec
       (after (add_link string_dec "A" "B" 3) (__init__ string_dec ["A"; "B"]))
       a b
     = link string_dec (__init__ string_dec ["A"; "B"]) a b) /\
  nodes (after (add_link string_dec "A" "B" 3) (__init__ string_dec ["A"; "B"]))
  = nodes (__init__ string_dec ["A"; "B"]) /\
  routing_tables
    (after (add_link string_dec "A" "B" 3) (__init__ string_dec ["A"; "B"]))
  = routing_tables (__init__ string_dec ["A"; "B"]).
Proof.
  assert (H1 : reachable string_dec (__init__ string_dec ["A"; "B"]))
    by constructor.
  assert (H2 : In "A" (nodes (__init__ string_dec ["A"; "B"])))
    by (simpl; tauto).
  assert (H3 : In "B" (nodes (__init__ string_dec ["A"; "B"])))
    by (simpl; tauto).
  repeat (split; [assumption|]).
  exact (add_link_known_nodes string string_dec (__init__ string_dec ["A"; "B"])
           "A" "B" 3 H1 H2 H3).
Defined.

(** [build_graph_symmetric] on the network of the script. *)
Lemma build_graph_symmetric_witness :
  build string_dec script_nodes script_links = (Ok tt, network) /\
  link string_dec network "C" "H" = link string_dec network "H" "C".
Proof.
  assert (H1 : build string_dec script_nodes script_links = (Ok tt, network))
    by (vm_compute; reflexivity).
  split; [assumption|].
  exact (build_graph_symmetric string string_dec script_nodes script_links
           network "C" "H" H1).
Defined.

(** [constructor_state] on the nodes of the script. *)
Lemma constructor_state_witness :
  NoDup script_nodes /\
  nodes (__init__ string_dec script_nodes) = script_nodes /\
  dict_keys (graph (__init__ string_dec script_nodes)) = script_nodes /\
  dict_keys (routing_tables (__init__ string_dec script_nodes)) = script_nodes /\
  (forall n, In n script_nodes ->
     table_keys string_dec (__init__ string_dec script_nodes) n
     = Some script_nodes) /\
  (forall a b, link string_dec (__init__ string_dec script_nodes) a b = None) /\
  (forall s d,
      entry string_dec (__init__ string_dec script_nodes) s d
      = if in_dec string_dec s script_nodes
        then (if in_dec string_dec d script_nodes then Some (Inf, None) else None)
        else None).
Proof.
  assert (H1 : NoDup script_nodes).
  { pose proof (NoDup_nodup string_dec script_nodes) as H.
    vm_compute in H. exact H. }
  split; [assumption|].
  exact (constructor_state string string_dec script_nodes H1).
Defined.

(** [initialize_tables_reachable] on two linked nodes after one round:
    the second initialization keeps the entry found by the round. *)
Lemma initialize_tables_reachable_witness :
  reachable string_dec pair_round /\
  fst (initialize_tables string_dec pair_round) = Ok tt /\
  nodes (after (initialize_tables string_dec) pair_round) = nodes pair_round /\
  graph (after (initialize_tables string_dec) pair_round) = graph pair_round /\
  (forall s d,
      entry string_dec (after (initialize_tables string_dec) pair_round) s d
      = if string_dec s d
        then (if in_dec string_dec s (nodes pair_round) then Some (Fin 0, Some s)
              else entry string_dec pair_round s d)
        else entry string_dec pair_round s d).
Proof.
  assert (H1 : reachable string_dec pair_round) by (repeat constructor).
  split; [assumption|].
  exact (initialize_tables_reachable string string_dec pair_round H1).
Defined.

(** [initialize_tables_idempotent] on two linked nodes after one round. *)
Lemma initialize_tables_idempotent_witness :
  reachable string_dec pair_round /\
  initialize_tables string_dec (after (initialize_tables string_dec) pair_round)
  = (Ok tt, after (initialize_tables string_dec) pair_round).
Proof.
  assert (H1 : reachable string_dec pair_round) by (repeat constructor).
  split; [assumption|].
  exact (initialize_tables_idempotent string string_dec pair_round H1).
Defined.

(** [update_routing_flag] on the first round of the network of the script. *)
Lemma update_routing_flag_witness :
  fst (update_routing string_dec (run string_dec 0 network)) = Ok true /\
  (true = true ->
   progress string_dec (run string_dec 0 network)
     (after (update_routing string_dec) (run string_dec 0 network))) /\
  (true = true <->
   after (update_routing string_dec) (run string_dec 0 network)
   <> run string_dec 0 network).
Proof.
  assert (H1 : fst (update_routing string_dec (run string_dec 0 network)) = Ok true)
    by (vm_compute; reflexivity).
  split; [assumption|].
  exact (update_routing_flag string string_dec (run string_dec 0 network) true H1).
Defined.

(** [update_routing_never_raises] on the network of the script. *)
Lemma update_routing_never_raises_witness :
  build string_dec script_nodes script_links = (Ok tt, network) /\
  graph_convertibleb network = true /\
  (exists b, fst (update_routing string_dec network) = Ok b) /\
  (exists b, fst (update_routing string_dec (run string_dec 2 network)) = Ok b).
Proof.
  assert (H1 : build string_dec script_nodes script_links = (Ok tt, network))
    by (vm_compute; reflexivity).
  assert (H2 : graph_convertibleb network = true) by (vm_compute; reflexivity).
  repeat (split; [assumption|]).
  exact (update_routing_never_raises string string_dec script_nodes script_links
           network 2%nat H1 H2).
Defined.

(** [update_routing_after_failed_add_link] on a one-node engine. *)
Lemma update_routing_after_failed_add_link_witness :
  reachable string_dec lone_engine /\
  In "A" (nodes lone_engine) /\
  ~ In "Z" (nodes lone_engine) /\
  exists x,
    fst (update_routing string_dec
           (rounds string_dec 2 (after (add_link string_dec "A" "Z" 1) lone_engine)))
    = Raise x.
Proof.
  assert (H1 : reachable string_dec lone_engine) by constructor.
  assert (H2 : In "A" (nodes lone_engine)) by (simpl; tauto).
  assert (H3 : ~ In "Z" (nodes lone_engine)).
  { simpl. intros [H|[]]. discriminate. }
  repeat (split; [assumption|]).
  exact (update_routing_after_failed_add_link string string_dec lone_engine
           "A" "Z" 1 2%nat H1 H2 H3).
Defined.

(** [entry_cost_and_next_hop] on two linked nodes after one round. *)
Lemma entry_cost_and_next_hop_witness :
  reachable string_dec pair_round /\
  entry string_dec pair_round "A" "B" = Some (Fin 1, Some "B") /\
  (Fin 1 = Inf <-> Some "B" = None) /\
  entry_shape (Fin 1, Some "B").
Proof.
  assert (H1 : reachable string_dec pair_round) by (repeat constructor).
  assert (H2 : entry string_dec pair_round "A" "B" = Some (Fin 1, Some "B"))
    by (vm_compute; reflexivity).
  repeat (split; [assumption|]).
  exact (entry_cost_and_next_hop string string_dec pair_round "A" "B"
           (Fin 1) (Some "B") H1 H2).
Defined.

(** [simulate_break] on the network of the script. *)
Lemma simulate_break_witness :
  simulate string_dec 10 network = (Ok (Some 4%nat), run string_dec 4 network) /\
  fst (initialize_tables string_dec network) = Ok tt /\
  run string_dec 4 network = run string_dec 4 network /\
  fst (update_routing string_dec (run string_dec 4 network)) = Ok false /\
  forall j, (j < 4)%nat ->
    fst (update_routing string_dec (run string_dec j network)) = Ok true.
Proof.
  assert (H1 : simulate string_dec 10 network
               = (Ok (Some 4%nat), run string_dec 4 network))
    by (vm_compute; reflexivity).
  split; [assumption|].
  exact (simulate_break string string_dec 10 network 4 (run string_dec 4 network)
           H1).
Defined.

(** [simulate_terminates] on the network of the script. *)
Lemma simulate_terminates_witness :
  build string_dec script_nodes script_links = (Ok tt, network) /\
  graph_nonnegb network = true /\
  graph_convertibleb network = true /\
  (List.length (nodup string_dec script_nodes) - 1 < 8)%nat /\
  exists k, (k <= List.length (nodup string_dec script_nodes) - 1)%nat /\
            simulate string_dec 8 network = (Ok (Some k), run string_dec k network).
Proof.
  assert (H1 : build string_dec script_nodes script_links = (Ok tt, network))
    by (vm_compute; reflexivity).
  assert (H2 : graph_nonnegb network = true) by (vm_compute; reflexivity).
  assert (H3 : graph_convertibleb network = true) by (vm_compute; reflexivity).
  assert (H4 : (List.length (nodup string_dec script_nodes) - 1 < 8)%nat)
    by (vm_compute; lia).
  repeat (split; [assumption|]).
  exact (simulate_terminates string string_dec script_nodes script_links
           network 8%nat H1 H2 H3 H4).
Defined.

(** [negative_link_never_converges] on two nodes joined at cost -1. *)
Lemma negative_link_never_converges_witness :
  build string_dec ["A"; "B"] [("A", "B", -1)] = (Ok tt, negative_engine) /\
  link string_dec negative_engine "A" "B" = Some (-1) /\
  -1 < 0 /\
  (forall k,
      fst (update_routing string_dec (run string_dec k negative_engine))
      <> Ok false) /\
  (forall fuel k, fst (simulate string_dec fuel negative_engine) <> Ok (Some k)).
Proof.
  assert (H1 : build string_dec ["A"; "B"] [("A", "B", -1)]
               = (Ok tt, negative_engine)) by (vm_compute; reflexivity).
  assert (H2 : link string_dec negative_engine "A" "B" = Some (-1))
    by (vm_compute; reflexivity).
  assert (H3 : -1 < 0) by lia.
  repeat (split; [assumption|]).
  exact (negative_link_never_converges string string_dec ["A"; "B"]
           [("A", "B", -1)] negative_engine "A" "B" (-1) H1 H2 H3).
Defined.

(** [converged_costs_symmetric] on the network of the script, [A] and [H]. *)
Lemma converged_costs_symmetric_witness :
  build string_dec script_nodes script_links = (Ok tt, network) /\
  graph_nonnegb network = true /\
  fst (update_routing string_dec (run string_dec 4 network)) = Ok false /\
  In "A" script_nodes /\ In "H" script_nodes /\
  exists c h1 h2,
    entry string_dec (run string_dec 4 network) "A" "H" = Some (c, h1) /\
    entry string_dec (run string_dec 4 network) "H" "A" = Some (c, h2).
Proof.
  assert (H1 : build string_dec script_nodes script_links = (Ok tt, network))
    by (vm_compute; reflexivity).
  assert (H2 : graph_nonnegb network = true) by (vm_compute; reflexivity).
  assert (H3 : fst (update_routing string_dec (run string_dec 4 network)) = Ok false)
    by (vm_compute; reflexivity).
  assert (H4 : In "A" script_nodes) by (simpl; tauto).
  assert (H5 : In "H" script_nodes) by (simpl; tauto).
  repeat (split; [assumption|]).
  exact (converged_costs_symmetric string string_dec script_nodes script_links
           network 4%nat "A" "H" H1 H2 H3 H4 H5).
Defined.

(** [recorded_cost_is_path_cost] on the network of the script, before
    convergence: the cost 7 recorded by [A] for [H] after two rounds. *)
Lemma recorded_cost_is_path_cost_witness :
  build string_dec script_nodes script_links = (Ok tt, network) /\
  entry string_dec (run string_dec 2 network) "A" "H" = Some (Fin 7, Some "E") /\
  exists p, path_cost string_dec network "A" p = Some 7 /\ last p "A" = "H".
Proof.
  assert (H1 : build string_dec script_nodes script_links = (Ok tt, network))
    by (vm_compute; reflexivity).
  assert (H2 : entry string_dec (run string_dec 2 network) "A" "H"
               = Some (Fin 7, Some "E")) by (vm_compute; reflexivity).
  repeat (split; [assumption|]).
  exact (recorded_cost_is_path_cost string string_dec script_nodes script_links
           network 2%nat "A" "H" 7 (Some "E") H1 H2).
Defined.

(** [reinitialize_noop] on the network of the script after two rounds. *)
Lemma reinitialize_noop_witness :
  build string_dec script_nodes script_links = (Ok tt, network) /\
  graph_nonnegb network = true /\
  initialize_tables string_dec (run string_dec 2 network)
  = (Ok tt, run string_dec 2 network).
Proof.
  assert (H1 : build string_dec script_nodes script_links = (Ok tt, network))
    by (vm_compute; reflexivity).
  assert (H2 : graph_nonnegb network = true) by (vm_compute; reflexivity).
  repeat (split; [assumption|]).
  exact (reinitialize_noop string string_dec script_nodes script_links
           network 2%nat H1 H2).
Defined.
